(** * Travelling-salesman coursework: [GraphModel] and [TSPSolver]

    A shallow embedding of [src/final.py]: the adjacency structure kept by
    [GraphModel], the NetworkX graph that [get_graph] builds from it, and the
    exhaustive search of [TSPSolver.calculate_tsp_route], followed by the
    properties of the specification that concern them. *)

From Stdlib Require Import String ZArith List Bool Lia Permutation.
From Stdlib Require Import DecimalString.
Import ListNotations.
Local Open Scope string_scope.
Local Open Scope Z_scope.
Local Open Scope list_scope.

(* ===================================================================== *)
(** * Python dictionaries *)
(* ===================================================================== *)

(** A [dict] keyed by strings keeps its keys in insertion order: an
    assignment to an existing key overwrites the value where the key
    stands, an assignment to a new key appends it.  Iteration order is the
    order of the list. *)
Module PyDict.

Definition dict (V : Type) : Type := list (string * V).

Section Operations.
Context {V : Type}.

(** [d.get(k)] *)
Fixpoint get (k : string) (d : dict V) : option V :=
  match d with
  | [] => None
  | (k', v) :: d' => if String.eqb k' k then Some v else get k d'
  end.

(** [k in d] *)
Definition mem (k : string) (d : dict V) : bool :=
  match get k d with Some _ => true | None => false end.

(** [d[k] = v] *)
Fixpoint set (k : string) (v : V) (d : dict V) : dict V :=
  match d with
  | [] => [(k, v)]
  | (k', v') :: d' =>
      if String.eqb k' k then (k', v) :: d' else (k', v') :: set k v d'
  end.

(** [list(d)] *)
Definition keys (d : dict V) : list string := map fst d.

End Operations.

End PyDict.

Import PyDict.

(* ===================================================================== *)
(** * Exceptions and mutable state *)
(* ===================================================================== *)

Inductive exn : Type :=
| KeyError (key : string)
| ValueError (msg : string).

(** The outcome of a computation: a value, or an exception that escapes. *)
Inductive res (A : Type) : Type :=
| Ok (a : A)
| Raise (e : exn).
Arguments Ok {A} a.
Arguments Raise {A} e.

Definition bindR {A B : Type} (c : res A) (k : A -> res B) : res B :=
  match c with
  | Ok a => k a
  | Raise e => Raise e
  end.

Notation "x <~ c ;; k" := (bindR c (fun x => k))
  (at level 61, c at next level, right associativity).

(** A [for] loop whose body updates the loop's variables [S] and may raise. *)
Fixpoint for_each {A S : Type} (xs : list A) (body : A -> S -> res S) (s : S)
  : res S :=
  match xs with
  | [] => Ok s
  | x :: xs' => s' <~ body x s ;; for_each xs' body s'
  end.

(** A method of an object with state [S]: it returns or raises, and leaves
    the object in a new state. *)
Definition M (S A : Type) : Type := S -> res A * S.

Definition ret {S A : Type} (a : A) : M S A := fun s => (Ok a, s).

Definition raise {S A : Type} (e : exn) : M S A := fun s => (Raise e, s).

Definition bind {S A B : Type} (c : M S A) (k : A -> M S B) : M S B :=
  fun s =>
    match c s with
    | (Ok a, s') => k a s'
    | (Raise e, s') => (Raise e, s')
    end.

Definition lift {S A : Type} (c : res A) : M S A := fun s => (c, s).

(** [try: c except ValueError as e: h e] *)
Definition try_except_ValueError {S A : Type} (c : M S A) (h : string -> M S A)
  : M S A :=
  fun s =>
    match c s with
    | (Raise (ValueError msg), s') => h msg s'
    | r => r
    end.

Notation "x <- c ;; k" := (bind c (fun x => k))
  (at level 61, c at next level, right associativity).
Notation "c1 ;;; c2" := (bind c1 (fun _ => c2))
  (at level 61, right associativity).

(* ===================================================================== *)
(** * [networkx.Graph] *)
(* ===================================================================== *)

(** The part of [nx.Graph] that the program uses.  [nodes] are the keys of
    the graph's node dictionary in insertion order; [adj] is its adjacency
    dictionary, each edge carrying the single attribute [weight]. *)
Module NX.

Record Graph : Type := {
  nodes : list string;
  adj : dict (dict Z)
}.

(** [nx.Graph()] *)
Definition empty : Graph := {| nodes := []; adj := [] |}.

Definition has_node (u : string) (G : Graph) : bool :=
  existsb (String.eqb u) (nodes G).

(** The first half of [Graph.add_edge]: a new endpoint is appended to the
    node dictionary with an empty neighbour dictionary. *)
Definition touch (u : string) (G : Graph) : Graph :=
  if has_node u G then G
  else {| nodes := nodes G ++ [u]; adj := set u [] (adj G) |}.

(** [self._adj[u][v] = datadict], the weight updated to [w]. *)
Definition link (u v : string) (w : Z) (G : Graph) : Graph :=
  let nbrs := match get u (adj G) with Some d => d | None => [] end in
  {| nodes := nodes G; adj := set u (set v w nbrs) (adj G) |}.

(** [G.add_edge(u, v, weight=w)] *)
Definition add_edge (u v : string) (w : Z) (G : Graph) : Graph :=
  link v u w (link u v w (touch v (touch u G))).

(** [G[u][v]['weight']] *)
Definition weight (G : Graph) (u v : string) : res Z :=
  match get u (adj G) with
  | None => Raise (KeyError u)
  | Some nbrs =>
      match get v nbrs with
      | None => Raise (KeyError v)
      | Some w => Ok w
      end
  end.

End NX.

(* ===================================================================== *)
(** * [class GraphModel] *)
(* ===================================================================== *)

Record GraphModel : Type := {
  adjacency_matrix : dict (dict Z)
}.

Module GraphModel.

(** [GraphModel()] *)
Definition __init__ : GraphModel := {| adjacency_matrix := [] |}.

(** [self.adjacency_matrix] *)
Definition read : M GraphModel (dict (dict Z)) :=
  fun self => (Ok (adjacency_matrix self), self).

(** [self.adjacency_matrix = m] *)
Definition assign (m : dict (dict Z)) : M GraphModel unit :=
  fun _ => (Ok tt, {| adjacency_matrix := m |}).

(** [self.adjacency_matrix[k] = {}] *)
Definition new_row (k : string) : M GraphModel unit :=
  m <- read ;; assign (set k [] m).

(** [self.adjacency_matrix[k1][k2] = v] *)
Definition store (k1 k2 : string) (v : Z) : M GraphModel unit :=
  m <- read ;;
  match get k1 m with
  | None => raise (KeyError k1)
  | Some row => assign (set k1 (set k2 v row) m)
  end.

Definition add_edge (city1 city2 : string) (distance : Z) : M GraphModel unit :=
  m <- read ;;
  (if negb (mem city1 m) then new_row city1 else ret tt) ;;;
  m <- read ;;
  (if negb (mem city2 m) then new_row city2 else ret tt) ;;;
  store city1 city2 distance ;;;
  store city2 city1 distance.

Definition reset : M GraphModel unit := assign [].

(** The two nested loops of [get_graph] over [adjacency_matrix.items()]. *)
Definition add_row (G : NX.Graph) (item : string * dict Z) : NX.Graph :=
  let '(city1, neighbors) := item in
  fold_left
    (fun G (nb : string * Z) =>
       let '(city2, distance) := nb in NX.add_edge city1 city2 distance G)
    neighbors G.

Definition build (m : dict (dict Z)) : NX.Graph :=
  fold_left add_row m NX.empty.

Definition get_graph : M GraphModel NX.Graph :=
  m <- read ;;
  ret (build m).

End GraphModel.

(* ===================================================================== *)
(** * [itertools.permutations] *)
(* ===================================================================== *)

(** Every way of taking one element out of a list, by position, from the
    first position to the last. *)
Fixpoint selections {A : Type} (l : list A) : list (A * list A) :=
  match l with
  | [] => []
  | x :: l' =>
      (x, l') :: map (fun p : A * list A => (fst p, x :: snd p)) (selections l')
  end.

Fixpoint permutations_of_size {A : Type} (n : nat) (l : list A)
  : list (list A) :=
  match n with
  | O => [[]]
  | S n' =>
      flat_map
        (fun p : A * list A => map (cons (fst p)) (permutations_of_size n' (snd p)))
        (selections l)
  end.

(** [permutations(l)]: the full-length permutations of [l], emitted in
    lexicographic order of the positions of [l]. *)
Definition permutations {A : Type} (l : list A) : list (list A) :=
  permutations_of_size (length l) l.

(* ===================================================================== *)
(** * [class TSPSolver] *)
(* ===================================================================== *)

(** [min_distance] is [float('inf')] until a first route is measured. *)
Inductive dist : Type :=
| Infinity
| Finite (d : Z).

(** [distance < min_distance] *)
Definition lt_dist (distance : Z) (min_distance : dist) : bool :=
  match min_distance with
  | Infinity => true
  | Finite m => distance <? m
  end.

(** The second component of the pair [calculate_tsp_route] returns. *)
Inductive report : Type :=
| Message (text : string)
| Distance (d : dist).

Module TSPSolver.

Definition start_absent : string := "Начальный город отсутствует в графе!".

(** Lines 47-51: the length of the closed tour along [route].  The
    defaults of [nth] and [last] are never read: [route] starts with the
    start city and every index is below its length. *)
Definition route_distance (G : NX.Graph) (route : list string) : res Z :=
  distance <~
    for_each (seq 0 (length route - 1))
      (fun i distance =>
         w <~ NX.weight G (nth i route "") (nth (i + 1) route "") ;;
         Ok (distance + w))
      0 ;;
  w <~ NX.weight G (last route "") (nth 0 route "") ;;
  Ok (distance + w).

(** Lines 46-55: the body of the loop over the permutations. *)
Definition consider (G : NX.Graph) (start_city : string)
    (route : list string) (best : dist * option (list string))
  : res (dist * option (list string)) :=
  let '(min_distance, best_route) := best in
  let route := start_city :: route in
  distance <~ route_distance G route ;;
  if lt_dist distance min_distance
  then Ok (Finite distance, Some route)
  else Ok (min_distance, best_route).

Definition others (start_city : string) (nodes : list string) : list string :=
  filter (fun node => negb (String.eqb node start_city)) nodes.

Definition calculate_tsp_route (start_city : string)
  : M GraphModel (option (list string) * report) :=
  G <- GraphModel.get_graph ;;
  let nodes := NX.nodes G in
  if negb (existsb (String.eqb start_city) nodes)
  then ret (None, Message start_absent)
  else
    best <- lift (for_each (permutations (others start_city nodes))
                    (consider G start_city) (Infinity, None)) ;;
    ret (snd best, Distance (fst best)).

End TSPSolver.

(* ===================================================================== *)
(** * [class Application]: the texts of its two [ValueError]s *)
(* ===================================================================== *)

Module Application.

Definition same_cities : string := "Города не могут быть одинаковыми!".
Definition negative_distance : string :=
  "Расстояние не может быть отрицательным!".

End Application.

(* ===================================================================== *)
(** * Vocabulary of the properties *)
(* ===================================================================== *)

(** The state an object is left in, and what the call gave. *)
Definition state_after {S A : Type} (c : M S A) (s : S) : S := snd (c s).
Definition outcome {S A : Type} (c : M S A) (s : S) : res A := fst (c s).

(** The graph after a sequence of user actions on a fresh [GraphModel]. *)
Inductive action : Type :=
| AddEdge (city1 city2 : string) (distance : Z)
| Reset.

Definition perform (a : action) : M GraphModel unit :=
  match a with
  | AddEdge city1 city2 distance => GraphModel.add_edge city1 city2 distance
  | Reset => GraphModel.reset
  end.

Definition run_from (g : GraphModel) (actions : list action) : GraphModel :=
  fold_left (fun g a => state_after (perform a) g) actions g.

Definition run (actions : list action) : GraphModel :=
  run_from GraphModel.__init__ actions.

(** [m[u][v]] in a dictionary of dictionaries, when recorded. *)
Definition lookup2 (m : dict (dict Z)) (u v : string) : option Z :=
  match get u m with
  | None => None
  | Some row => get v row
  end.

(** The recorded entry (u, v) of the adjacency structure. *)
Definition entry (g : GraphModel) (u v : string) : option Z :=
  lookup2 (adjacency_matrix g) u v.

(** The node set of the adjacency structure: its keys. *)
Definition is_node (g : GraphModel) (u : string) : bool :=
  mem u (adjacency_matrix g).

Definition symmetric (g : GraphModel) : Prop :=
  forall u v w, entry g u v = Some w -> entry g v u = Some w.

(** Two states with the same content: the same node set and the same
    weight function, whatever the order of their dictionaries. *)
Definition same_content (g1 g2 : GraphModel) : Prop :=
  (forall u, is_node g1 u = is_node g2 u) /\
  (forall u v, entry g1 u v = entry g2 u v).

(** The graph the solver works on, and the call the user makes. *)
Definition graph_of (g : GraphModel) : NX.Graph :=
  GraphModel.build (adjacency_matrix g).

Definition solve (g : GraphModel) (start_city : string)
  : res (option (list string) * report) :=
  outcome (TSPSolver.calculate_tsp_route start_city) g.

(** The weight of an edge as a number (0 where none is recorded), and the
    sum of the weights of the consecutive pairs of a walk. *)
Definition weight_of (G : NX.Graph) (u v : string) : Z :=
  match NX.weight G u v with
  | Ok w => w
  | Raise _ => 0
  end.

Fixpoint walk_sum (w : string -> string -> Z) (l : list string) : Z :=
  match l with
  | [] => 0
  | a :: l' =>
      match l' with
      | [] => 0
      | b :: _ => w a b + walk_sum w l'
      end
  end.

(** The cost of the cycle that follows [route] and closes back to
    [start]. *)
Definition cycle_cost (G : NX.Graph) (start : string) (route : list string) : Z :=
  walk_sum (weight_of G) (route ++ [start]).

(** A Hamiltonian cycle through [start], written as the spec writes a
    route without its closing entry: it begins at [start] and visits every
    node of the graph exactly once. *)
Definition hamiltonian (G : NX.Graph) (start : string) (route : list string)
  : Prop :=
  hd_error route = Some start /\
  NoDup route /\
  (forall x, In x route <-> In x (NX.nodes G)).

(** The graph has an edge between every two distinct nodes. *)
Definition complete (G : NX.Graph) : Prop :=
  forall u v, In u (NX.nodes G) -> In v (NX.nodes G) -> u <> v ->
              exists w, NX.weight G u v = Ok w.

(** The loop of lines 48-49 read along the list instead of by index. *)
Fixpoint walk (G : NX.Graph) (a : string) (l : list string) (distance : Z)
  : res Z :=
  match l with
  | [] => Ok distance
  | b :: l' => w <~ NX.weight G a b ;; walk G b l' (distance + w)
  end.

(** The edges [get_graph] hands to NetworkX, in the order it does. *)
Definition edges_of (m : dict (dict Z)) : list (string * string * Z) :=
  flat_map
    (fun item : string * dict Z =>
       map (fun nb : string * Z => (fst item, fst nb, snd nb)) (snd item))
    m.

Definition joins (e : string * string * Z) (u v : string) : bool :=
  let '(a, b, _) := e in
  (String.eqb a u && String.eqb b v) || (String.eqb a v && String.eqb b u).

(** The weight of the last edge of the list that joins [u] and [v]. *)
Fixpoint last_weight (es : list (string * string * Z)) (u v : string)
  : option Z :=
  match es with
  | [] => None
  | e :: es' =>
      match last_weight es' u v with
      | Some w => Some w
      | None => if joins e u v then Some (snd e) else None
      end
  end.

Definition add_weighted_edge (G : NX.Graph) (e : string * string * Z)
  : NX.Graph :=
  let '(u, v, w) := e in NX.add_edge u v w G.

Definition touches (e : string * string * Z) (x : string) : Prop :=
  let '(u, v, _) := e in x = u \/ x = v.

(** What [add_edge] keeps true of a NetworkX graph: no node twice, the
    nodes are the keys of the adjacency dictionary, and every node has an
    edge to a node. *)
Definition consistent (G : NX.Graph) : Prop :=
  NoDup (NX.nodes G) /\
  (forall u, mem u (NX.adj G) = NX.has_node u G) /\
  (forall u, In u (NX.nodes G) ->
             exists v w, In v (NX.nodes G) /\ lookup2 (NX.adj G) u v = Some w).

(** Dictionaries as Python keeps them: no key twice. *)
Definition well_formed (m : dict (dict Z)) : Prop :=
  NoDup (keys m) /\ forall k row, In (k, row) m -> NoDup (keys row).

(** The routes the loop of line 45 goes through, without their first
    entry, and the loop itself. *)
Definition candidates (G : NX.Graph) (start_city : string) : list (list string) :=
  permutations (TSPSolver.others start_city (NX.nodes G)).

Definition search (G : NX.Graph) (start_city : string)
  : res (dist * option (list string)) :=
  for_each (candidates G start_city) (TSPSolver.consider G start_city)
    (Infinity, None).

(** [best], of length [c], is the first cheapest of the candidates: the
    candidates before it are longer, those after it are not shorter. *)
Definition first_cheapest (G : NX.Graph) (start_city : string)
    (cands : list (list string)) (best : list string) (c : Z) : Prop :=
  exists pre post,
    cands = pre ++ best :: post /\
    TSPSolver.route_distance G (start_city :: best) = Ok c /\
    (forall q c', In q pre ->
       TSPSolver.route_distance G (start_city :: q) = Ok c' -> c < c') /\
    (forall q c', In q post ->
       TSPSolver.route_distance G (start_city :: q) = Ok c' -> c <= c').

(** The failures of [solve] that the specification tells apart. *)
Inductive solve_error : Type :=
| EmptyGraphError
| StartNodeNotFoundError
| IncompleteGraphError.

(** The triangle of the specification's example, entered in two orders. *)
Definition triangle_ABC : GraphModel :=
  run [AddEdge "A" "B" 10; AddEdge "B" "C" 15; AddEdge "A" "C" 20].
Definition triangle_ACB : GraphModel :=
  run [AddEdge "A" "C" 20; AddEdge "B" "C" 15; AddEdge "A" "B" 10].

(** What [add_edge] leaves in [adjacency_matrix], written in one piece. *)
Definition row_of (k : string) (m : dict (dict Z)) : dict Z :=
  match get k m with Some row => row | None => [] end.

Definition with_row (k : string) (m : dict (dict Z)) : dict (dict Z) :=
  if mem k m then m else set k [] m.

Definition with_entry (k1 k2 : string) (v : Z) (m : dict (dict Z))
  : dict (dict Z) :=
  set k1 (set k2 v (row_of k1 m)) m.

Definition with_edge (u v : string) (w : Z) (m : dict (dict Z))
  : dict (dict Z) :=
  with_entry v u w (with_entry u v w (with_row v (with_row u m))).

(* ===================================================================== *)
(** * [class Application]: the window and its three buttons *)
(* ===================================================================== *)

(** What the handlers of the window read and write: the graph model and
    the content of the output box.  The entries are the handlers'
    arguments; the canvas of [GraphView] is not part of the state. *)
Record Window : Type := {
  graph_model : GraphModel;
  text_output : string
}.

(** The decimal digits of [n]: what [str(n)] and [f"{n}"] give for an
    integer when they give a text. *)
Definition decimal (n : Z) : string := NilZero.string_of_int (Z.to_int n).

Definition newline : string := String (Ascii.ascii_of_nat 10) EmptyString.

(** A [for] loop whose body is run for its effect on the object. *)
Fixpoint for_each_do {A S : Type} (xs : list A) (body : A -> M S unit)
  : M S unit :=
  match xs with
  | [] => ret tt
  | x :: xs' => body x ;;; for_each_do xs' body
  end.

(** A list comprehension [[f(x) for x in xs]] whose expression may raise. *)
Fixpoint comprehension {A B : Type} (f : A -> res B) (xs : list A)
  : res (list B) :=
  match xs with
  | [] => Ok []
  | x :: xs' => y <~ f x ;; ys <~ comprehension f xs' ;; Ok (y :: ys)
  end.

Module Window.

(** The window when [Application.__init__] returns. *)
Definition __init__ : Window :=
  {| graph_model := GraphModel.__init__; text_output := "" |}.

(** A call on [self.graph_model]. *)
Definition on_model {A : Type} (c : M GraphModel A) : M Window A :=
  fun self =>
    let '(r, g) := c (graph_model self) in
    (r, {| graph_model := g; text_output := text_output self |}).

(** [self.text_output.delete(1.0, tk.END)] *)
Definition delete_all : M Window unit :=
  fun self => (Ok tt, {| graph_model := graph_model self; text_output := "" |}).

(** [self.text_output.insert(tk.END, text)] *)
Definition insert_end (text : string) : M Window unit :=
  fun self =>
    (Ok tt, {| graph_model := graph_model self;
               text_output := (text_output self ++ text)%string |}).

(** [if best_route:] *)
Definition truthy (best_route : option (list string)) : bool :=
  match best_route with
  | Some (_ :: _) => true
  | _ => false
  end.

(** What the output box shows of [result] handed to it as it is, in the
    [else] branch of [calculate_tsp_route].  Only a message reaches that
    branch; a number is written out by Tk without Python's [str]. *)
Definition as_text (result : report) : string :=
  match result with
  | Message text => text
  | Distance (Finite d) => decimal d
  | Distance Infinity => "inf"
  end.

(** Lines 156-159, without [self.graph_view.clear_graph()], which clears
    the canvas. *)
Definition reset : M Window unit :=
  on_model GraphModel.reset ;;;
  delete_all.

Section Platform.

(** Python's [int(text)]: the number read, or the [ValueError] raised. *)
Variable int : string -> res Z.

(** Python's [str(n)] and [f"{n}"] for an integer [n]: its digits, or the
    exception raised (CPython raises a [ValueError] for an integer of more
    digits than its conversion limit). *)
Variable str : Z -> res string.

(** [self.graph_view.update_graph(graph_model)]: NetworkX lays the graph
    out and Matplotlib draws it with its labels on the canvas; the call
    returns or raises, and reads the graph model only. *)
Variable update_graph : GraphModel -> res unit.

(** [f"{neighbor} = {distance}"] *)
Definition neighbor_text (nb : string * Z) : res string :=
  let '(neighbor, distance) := nb in
  digits <~ str distance ;;
  Ok (neighbor ++ " = " ++ digits)%string.

(** One line of [update_output]. *)
Definition line (item : string * dict Z) : res string :=
  let '(city, neighbors) := item in
  parts <~ comprehension neighbor_text neighbors ;;
  Ok (city ++ ": " ++ String.concat ", " parts ++ newline)%string.

Definition update_output : M Window unit :=
  delete_all ;;;
  m <- on_model GraphModel.read ;;
  for_each_do m (fun item => text <- lift (line item) ;; insert_end text).

(** [f"{result}"] *)
Definition format (result : report) : res string :=
  match result with
  | Message text => Ok text
  | Distance (Finite d) => str d
  | Distance Infinity => Ok "inf"
  end.

(** The f-string of line 152. *)
Definition route_text (best_route : option (list string)) (result : report)
  : res string :=
  let joined :=
    String.concat " -> "
      (match best_route with Some r => r | None => [] end) in
  digits <~ format result ;;
  Ok ("Оптимальный маршрут: " ++ joined ++ newline
      ++ "Длина маршрута: " ++ digits ++ " км")%string.

Definition calculate_tsp_route (start_city : string) : M Window unit :=
  r <- on_model (TSPSolver.calculate_tsp_route start_city) ;;
  let '(best_route, result) := r in
  delete_all ;;;
  if truthy best_route
  then text <- lift (route_text best_route result) ;; insert_end text
  else insert_end (as_text result).

(** [self.graph_view.update_graph(self.graph_model)] *)
Definition draw : M Window unit :=
  fun self => (update_graph (graph_model self), self).

Definition add_edge (city1 city2 distance : string) : M Window unit :=
  try_except_ValueError
    (distance <- lift (int distance) ;;
     (if String.eqb city1 city2
      then raise (ValueError Application.same_cities) else ret tt) ;;;
     (if distance <? 0
      then raise (ValueError Application.negative_distance) else ret tt) ;;;
     on_model (GraphModel.add_edge city1 city2 distance) ;;;
     update_output ;;;
     draw)
    (fun msg => delete_all ;;; insert_end msg).

End Platform.

End Window.

(** A click on one of the three buttons, with what the entries hold. *)
Inductive click : Type :=
| ClickAdd (city1 city2 distance : string)
| ClickCalculate (start_city : string)
| ClickReset.

Definition handle (int : string -> res Z) (str : Z -> res string)
    (update_graph : GraphModel -> res unit) (c : click) : M Window unit :=
  match c with
  | ClickAdd city1 city2 distance =>
      Window.add_edge int str update_graph city1 city2 distance
  | ClickCalculate start_city => Window.calculate_tsp_route str start_city
  | ClickReset => Window.reset
  end.

(** The window after a sequence of clicks.  An exception that escapes a
    handler is reported by Tk's event loop, which goes on: the window stays
    as the handler left it. *)
Definition session_from (int : string -> res Z) (str : Z -> res string)
    (update_graph : GraphModel -> res unit) (w : Window)
    (clicks : list click) : Window :=
  fold_left (fun w c => state_after (handle int str update_graph c) w)
    clicks w.

Definition session (int : string -> res Z) (str : Z -> res string)
    (update_graph : GraphModel -> res unit) (clicks : list click) : Window :=
  session_from int str update_graph Window.__init__ clicks.

(** The text [update_output] builds for an adjacency structure, or the
    exception of the first number it cannot write. *)
Definition listing (str : Z -> res string) (m : dict (dict Z)) : res string :=
  lines <~ comprehension (Window.line str) m ;;
  Ok (String.concat "" lines).

(** The weight [add_edge] recorded between two cities (0 where it
    recorded none), and the cost, in recorded weights, of the cycle that
    follows [route] and closes back to [start]. *)
Definition recorded (g : GraphModel) (u v : string) : Z :=
  match entry g u v with
  | Some w => w
  | None => 0
  end.

Definition recorded_cost (g : GraphModel) (start : string)
    (route : list string) : Z :=
  walk_sum (recorded g) (route ++ [start]).

(** A Hamiltonian cycle of the recorded graph through [start]: it begins
    at [start] and visits every key of [adjacency_matrix] exactly once. *)
Definition tour (g : GraphModel) (start : string) (route : list string)
  : Prop :=
  hd_error route = Some start /\
  NoDup route /\
  (forall x, In x route <-> is_node g x = true).

(** Every two distinct nodes have a recorded edge. *)
Definition all_joined (g : GraphModel) : Prop :=
  forall u v, is_node g u = true -> is_node g v = true -> u <> v ->
              exists w, entry g u v = Some w.

(** No city is joined to itself and no distance is negative. *)
Definition sound_edges (g : GraphModel) : Prop :=
  forall u v w, entry g u v = Some w -> u <> v /\ 0 <= w.

(** The insertions the add button lets through. *)
Definition checked (a : action) : Prop :=
  match a with
  | AddEdge city1 city2 distance => city1 <> city2 /\ 0 <= distance
  | Reset => True
  end.

(** Two consecutive entries of a list. *)
Definition consecutive (l : list string) (x y : string) : Prop :=
  exists pre post, l = pre ++ x :: y :: post.

(* ===================================================================== *)
(** * Dictionary facts *)
(* ===================================================================== *)

Section DictFacts.
Context {V : Type}.
Implicit Types (d : dict V) (k : string) (v : V).

Lemma get_set_same d k v : get k (set k v d) = Some v.
Proof.
  induction d as [|[k' v'] d IH]; simpl.
  - now rewrite String.eqb_refl.
  - destruct (String.eqb k' k) eqn:E; simpl; now rewrite E.
Qed.

Lemma get_set_other d k k' v : k <> k' -> get k' (set k v d) = get k' d.
Proof.
  intros Hne. induction d as [|[k0 v0] d IH]; simpl.
  - destruct (String.eqb_spec k k'); congruence.
  - destruct (String.eqb_spec k0 k) as [->|Hk]; simpl.
    + destruct (String.eqb_spec k k'); congruence.
    + now rewrite IH.
Qed.

Lemma get_set d k k' v :
  get k' (set k v d) = if String.eqb k k' then Some v else get k' d.
Proof.
  destruct (String.eqb_spec k k') as [->|Hne].
  - apply get_set_same.
  - now apply get_set_other.
Qed.

Lemma set_same_value d k v : get k d = Some v -> set k v d = d.
Proof.
  induction d as [|[k' v'] d IH]; simpl; [discriminate|].
  destruct (String.eqb k' k) eqn:E.
  - now intros [= ->].
  - intros H. now rewrite IH.
Qed.

Lemma mem_set d k k' v : mem k' (set k v d) = String.eqb k k' || mem k' d.
Proof. unfold mem. rewrite get_set. now destruct (String.eqb k k'). Qed.

Lemma get_None_keys d k : get k d = None <-> ~ In k (keys d).
Proof.
  induction d as [|[k' v'] d IH]; simpl.
  - tauto.
  - destruct (String.eqb_spec k' k) as [->|Hne].
    + split; [discriminate | tauto].
    + rewrite IH. tauto.
Qed.

Lemma mem_keys d k : mem k d = true <-> In k (keys d).
Proof.
  unfold mem. pose proof (get_None_keys d k) as H.
  destruct (get k d).
  - split; [intros _ | reflexivity].
    destruct (in_dec string_dec k (keys d)) as [Hin|Hout]; [exact Hin|].
    apply H in Hout. discriminate.
  - split; [discriminate|]. intros Hin. now apply H in Hin.
Qed.

Lemma keys_set d k v :
  keys (set k v d) = if mem k d then keys d else keys d ++ [k].
Proof.
  unfold mem, keys. induction d as [|[k' v'] d IH]; simpl; [reflexivity|].
  destruct (String.eqb k' k) eqn:E; simpl; [reflexivity|].
  rewrite IH. now destruct (get k d).
Qed.

Lemma NoDup_keys_set d k v : NoDup (keys d) -> NoDup (keys (set k v d)).
Proof.
  intros Hnd. rewrite keys_set. destruct (mem k d) eqn:E; [exact Hnd|].
  apply NoDup_app; [exact Hnd | repeat constructor; simpl; tauto |].
  intros x Hin [<-|[]]. apply mem_keys in Hin. congruence.
Qed.

Lemma In_get d k v : NoDup (keys d) -> In (k, v) d -> get k d = Some v.
Proof.
  induction d as [|[k' v'] d IH]; simpl; [tauto|].
  intros Hnd [[= -> ->]|Hin].
  - now rewrite String.eqb_refl.
  - inversion Hnd as [|? ? Hout Hnd']; subst.
    destruct (String.eqb_spec k' k) as [->|Hne].
    + exfalso. apply Hout. now apply (in_map fst) in Hin.
    + now apply IH.
Qed.

Lemma get_In d k v : get k d = Some v -> In (k, v) d.
Proof.
  induction d as [|[k' v'] d IH]; simpl; [discriminate|].
  destruct (String.eqb_spec k' k) as [->|Hne].
  - intros [= ->]. now left.
  - intros H. right. now apply IH.
Qed.

Lemma In_set d k v k' v' :
  In (k', v') (set k v d) -> (k' = k /\ v' = v) \/ In (k', v') d.
Proof.
  induction d as [|[k0 v0] d IH]; simpl.
  - intros [[= <- <-]|[]]. now left.
  - destruct (String.eqb_spec k0 k) as [->|Hne]; simpl.
    + intros [[= <- <-]|Hin]; [now left | now right; right].
    + intros [Heq|Hin]; [now right; left|].
      destruct (IH Hin) as [?|?]; [now left | now right; right].
Qed.

End DictFacts.

(* ===================================================================== *)
(** * [GraphModel.add_edge] and [GraphModel.reset] *)
(* ===================================================================== *)

Lemma mem_get_row (m : dict (dict Z)) (k : string) :
  mem k m = true -> get k m = Some (row_of k m).
Proof. unfold mem, row_of. now destruct (get k m). Qed.

Lemma mem_with_row (k k' : string) (m : dict (dict Z)) :
  mem k' (with_row k m) = String.eqb k k' || mem k' m.
Proof.
  unfold with_row. destruct (mem k m) eqn:E.
  - destruct (String.eqb_spec k k') as [<-|]; [now rewrite E | reflexivity].
  - apply mem_set.
Qed.

Lemma mem_with_entry (k1 k2 k' : string) (v : Z) (m : dict (dict Z)) :
  mem k' (with_entry k1 k2 v m) = String.eqb k1 k' || mem k' m.
Proof. apply mem_set. Qed.

Lemma store_runs (k1 k2 : string) (v : Z) (m : dict (dict Z)) :
  mem k1 m = true ->
  GraphModel.store k1 k2 v {| adjacency_matrix := m |}
  = (Ok tt, {| adjacency_matrix := with_entry k1 k2 v m |}).
Proof.
  intros Hm. unfold GraphModel.store, bind, GraphModel.read. simpl.
  now rewrite (mem_get_row _ _ Hm).
Qed.

Lemma with_row_runs (k : string) (m : dict (dict Z)) :
  (if negb (mem k m) then GraphModel.new_row k else ret tt)
    {| adjacency_matrix := m |}
  = (Ok tt, {| adjacency_matrix := with_row k m |}).
Proof. unfold with_row. now destruct (mem k m). Qed.

(** [add_edge] always returns, and leaves [with_edge] behind. *)
Lemma add_edge_runs (u v : string) (w : Z) (g : GraphModel) :
  GraphModel.add_edge u v w g
  = (Ok tt, {| adjacency_matrix := with_edge u v w (adjacency_matrix g) |}).
Proof.
  destruct g as [m]. unfold GraphModel.add_edge, with_edge.
  unfold bind at 1. unfold GraphModel.read at 1. cbn [adjacency_matrix].
  unfold bind at 1. rewrite with_row_runs.
  unfold bind at 1. unfold GraphModel.read at 1. cbn [adjacency_matrix].
  unfold bind at 1. rewrite with_row_runs.
  unfold bind. rewrite store_runs.
  - rewrite store_runs; [reflexivity|].
    rewrite mem_with_entry, mem_with_row, String.eqb_refl.
    apply orb_true_iff. right. reflexivity.
  - rewrite !mem_with_row, String.eqb_refl. apply orb_true_iff. right.
    reflexivity.
Qed.

Lemma state_after_add_edge (u v : string) (w : Z) (g : GraphModel) :
  state_after (GraphModel.add_edge u v w) g
  = {| adjacency_matrix := with_edge u v w (adjacency_matrix g) |}.
Proof. unfold state_after. now rewrite add_edge_runs. Qed.

Lemma lookup2_set (m : dict (dict Z)) (k a b : string) (row : dict Z) :
  lookup2 (set k row m) a b
  = if String.eqb k a then get b row else lookup2 m a b.
Proof. unfold lookup2. rewrite get_set. now destruct (String.eqb k a). Qed.

Lemma lookup2_with_row (k a b : string) (m : dict (dict Z)) :
  lookup2 (with_row k m) a b = lookup2 m a b.
Proof.
  unfold with_row. destruct (mem k m) eqn:E; [reflexivity|].
  rewrite lookup2_set. destruct (String.eqb_spec k a) as [<-|]; [|reflexivity].
  unfold lookup2, mem in *. now destruct (get k m).
Qed.

Lemma lookup2_with_entry (k1 k2 a b : string) (v : Z) (m : dict (dict Z)) :
  lookup2 (with_entry k1 k2 v m) a b
  = if String.eqb k1 a && String.eqb k2 b then Some v else lookup2 m a b.
Proof.
  unfold with_entry. rewrite lookup2_set.
  destruct (String.eqb_spec k1 a) as [<-|]; [|reflexivity]. cbn [andb].
  rewrite get_set. destruct (String.eqb k2 b); [reflexivity|].
  unfold lookup2, row_of. now destruct (get k1 m).
Qed.

Lemma lookup2_with_edge (u v a b : string) (w : Z) (m : dict (dict Z)) :
  lookup2 (with_edge u v w m) a b
  = if joins (u, v, w) a b then Some w else lookup2 m a b.
Proof.
  unfold with_edge, joins.
  rewrite !lookup2_with_entry, !lookup2_with_row.
  destruct (String.eqb u a), (String.eqb v b), (String.eqb v a),
    (String.eqb u b); reflexivity.
Qed.

Lemma joins_true (u v a b : string) (w : Z) :
  joins (u, v, w) a b = true <-> (a = u /\ b = v) \/ (a = v /\ b = u).
Proof.
  unfold joins. rewrite orb_true_iff, !andb_true_iff, !String.eqb_eq.
  intuition congruence.
Qed.

Lemma joins_false (u v a b : string) (w : Z) :
  joins (u, v, w) a b = false <-> ~ ((a = u /\ b = v) \/ (a = v /\ b = u)).
Proof.
  rewrite <- joins_true with (w := w). now destruct (joins (u, v, w) a b).
Qed.

Lemma joins_sym (e : string * string * Z) (a b : string) :
  joins e a b = joins e b a.
Proof. destruct e as [[u v] w]. unfold joins. apply orb_comm. Qed.

Lemma entry_add_edge (u v a b : string) (w : Z) (g : GraphModel) :
  entry (state_after (GraphModel.add_edge u v w) g) a b
  = if joins (u, v, w) a b then Some w else entry g a b.
Proof.
  rewrite state_after_add_edge. unfold entry. cbn [adjacency_matrix].
  apply lookup2_with_edge.
Qed.

Lemma is_node_add_edge (u v a : string) (w : Z) (g : GraphModel) :
  is_node (state_after (GraphModel.add_edge u v w) g) a
  = String.eqb u a || String.eqb v a || is_node g a.
Proof.
  rewrite state_after_add_edge. unfold is_node, with_edge.
  cbn [adjacency_matrix].
  rewrite !mem_with_entry, !mem_with_row.
  destruct (String.eqb u a), (String.eqb v a), (mem a (adjacency_matrix g));
    reflexivity.
Qed.

(** ** The handler of the add button *)

Lemma append_nil_r (s : string) : (s ++ "")%string = s.
Proof. induction s as [|c s IH]; cbn; [reflexivity | now rewrite IH]. Qed.

Lemma append_assoc (s1 s2 s3 : string) :
  ((s1 ++ s2) ++ s3)%string = (s1 ++ (s2 ++ s3))%string.
Proof. induction s1 as [|c s1 IH]; cbn; [reflexivity | now rewrite IH]. Qed.

Lemma concat_nosep_cons (x : string) (xs : list string) :
  String.concat "" (x :: xs) = (x ++ String.concat "" xs)%string.
Proof.
  destruct xs as [|y xs]; cbn [String.concat].
  - now rewrite append_nil_r.
  - reflexivity.
Qed.


Section UpdateOutput.
Variable str : Z -> res string.

Let body (item : string * dict Z) : M Window unit :=
  text <- lift (Window.line str item) ;; Window.insert_end text.

(** Whatever the loop of [update_output] does, it does to the output box. *)
Lemma update_output_loop_graph (m : dict (dict Z)) (w : Window) :
  graph_model (snd (for_each_do m body w)) = graph_model w.
Proof.
  revert w. induction m as [|item m IH]; intros w; [reflexivity|].
  cbn [for_each_do]. unfold bind at 1. unfold body at 1.
  unfold bind at 1. unfold lift at 1.
  destruct (Window.line str item) as [text|e]; [|reflexivity].
  unfold Window.insert_end at 1. now rewrite IH.
Qed.

Lemma update_output_unfold (w : Window) :
  Window.update_output str w
  = for_each_do (adjacency_matrix (graph_model w)) body
      {| graph_model := graph_model w; text_output := "" |}.
Proof. reflexivity. Qed.

Lemma update_output_graph (w : Window) :
  graph_model (snd (Window.update_output str w)) = graph_model w.
Proof. now rewrite update_output_unfold, update_output_loop_graph. Qed.

(** When every number can be written, the loop appends the lines one after
    the other. *)
Lemma update_output_loop (m : dict (dict Z)) (lines : list string)
    (g : GraphModel) (t : string) :
  comprehension (Window.line str) m = Ok lines ->
  for_each_do m body {| graph_model := g; text_output := t |}
  = (Ok tt, {| graph_model := g;
               text_output := (t ++ String.concat "" lines)%string |}).
Proof.
  revert lines t. induction m as [|item m IH]; intros lines t; cbn [comprehension].
  - intros [= <-]. cbn. now rewrite append_nil_r.
  - destruct (Window.line str item) as [text|e] eqn:E; [|discriminate].
    cbn [bindR].
    destruct (comprehension (Window.line str) m) as [rest|e]; [|discriminate].
    cbn [bindR]. intros [= <-].
    cbn [for_each_do]. unfold bind at 1. unfold body at 1.
    unfold bind at 1. unfold lift at 1. rewrite E.
    unfold Window.insert_end at 1. cbn [graph_model text_output].
    rewrite (IH rest _ eq_refl), concat_nosep_cons. now rewrite append_assoc.
Qed.

(** The first number that cannot be written stops the loop with its
    exception. *)
Lemma update_output_loop_raises (m : dict (dict Z)) (e : exn)
    (g : GraphModel) (t : string) :
  comprehension (Window.line str) m = Raise e ->
  exists t', for_each_do m body {| graph_model := g; text_output := t |}
             = (Raise e, {| graph_model := g; text_output := t' |}).
Proof.
  revert t. induction m as [|item m IH]; intros t; cbn [comprehension];
    [discriminate|].
  cbn [for_each_do]. unfold bind at 1. unfold body at 1.
  unfold bind at 1. unfold lift at 1.
  destruct (Window.line str item) as [text|e'] eqn:E; cbn [bindR].
  - unfold Window.insert_end at 1. cbn [graph_model text_output].
    destruct (comprehension (Window.line str) m) as [rest|e'']; [discriminate|].
    cbn [bindR]. intros [= <-]. now apply IH.
  - intros [= <-]. now exists t.
Qed.

Lemma update_output_returns (w : Window) (text : string) :
  listing str (adjacency_matrix (graph_model w)) = Ok text ->
  Window.update_output str w
  = (Ok tt, {| graph_model := graph_model w; text_output := text |}).
Proof.
  unfold listing.
  destruct (comprehension (Window.line str) (adjacency_matrix (graph_model w)))
    as [lines|e] eqn:E; [|discriminate].
  cbn [bindR]. intros [= <-].
  now rewrite update_output_unfold, (update_output_loop _ lines _ _ E).
Qed.

Lemma update_output_raises (w : Window) (e : exn) :
  listing str (adjacency_matrix (graph_model w)) = Raise e ->
  exists t', Window.update_output str w
             = (Raise e, {| graph_model := graph_model w; text_output := t' |}).
Proof.
  unfold listing.
  destruct (comprehension (Window.line str) (adjacency_matrix (graph_model w)))
    as [lines|e'] eqn:E; [discriminate|].
  cbn [bindR]. intros [= ->].
  destruct (update_output_loop_raises _ e (graph_model w) "" E) as [t' Ht'].
  exists t'. now rewrite update_output_unfold, Ht'.
Qed.

End UpdateOutput.

Section AddClick.
Variable int : string -> res Z.
Variable str : Z -> res string.
Variable update_graph : GraphModel -> res unit.
Variables (city1 city2 distance : string) (w : Window).

Lemma add_click_unreadable (msg : string) :
  int distance = Raise (ValueError msg) ->
  Window.add_edge int str update_graph city1 city2 distance w
  = (Ok tt, {| graph_model := graph_model w; text_output := msg |}).
Proof.
  intros Hint. unfold Window.add_edge, try_except_ValueError, bind, lift.
  now rewrite Hint.
Qed.

Lemma add_click_other_exception (k : string) :
  int distance = Raise (KeyError k) ->
  Window.add_edge int str update_graph city1 city2 distance w
  = (Raise (KeyError k), w).
Proof.
  intros Hint. unfold Window.add_edge, try_except_ValueError, bind, lift.
  now rewrite Hint.
Qed.

Lemma add_click_same_cities (d : Z) :
  int distance = Ok d -> city1 = city2 ->
  Window.add_edge int str update_graph city1 city2 distance w
  = (Ok tt, {| graph_model := graph_model w;
               text_output := Application.same_cities |}).
Proof.
  intros Hint ->. unfold Window.add_edge, try_except_ValueError, bind, lift.
  now rewrite Hint, String.eqb_refl.
Qed.

Lemma add_click_negative (d : Z) :
  int distance = Ok d -> city1 <> city2 -> d < 0 ->
  Window.add_edge int str update_graph city1 city2 distance w
  = (Ok tt, {| graph_model := graph_model w;
               text_output := Application.negative_distance |}).
Proof.
  intros Hint Hne Hneg.
  unfold Window.add_edge, try_except_ValueError, bind, lift.
  apply String.eqb_neq in Hne. apply Z.ltb_lt in Hneg.
  now rewrite Hint, Hne, Hneg.
Qed.

(** An edge that passes the checks is inserted; the rest of the [try]
    block runs on the window that holds it. *)
Lemma add_click_inserts (d : Z) :
  int distance = Ok d -> city1 <> city2 -> 0 <= d ->
  Window.add_edge int str update_graph city1 city2 distance w
  = try_except_ValueError
      (Window.update_output str ;;; Window.draw update_graph)
      (fun msg => Window.delete_all ;;; Window.insert_end msg)
      {| graph_model :=
           state_after (GraphModel.add_edge city1 city2 d) (graph_model w);
         text_output := text_output w |}.
Proof.
  intros Hint Hne Hpos. apply String.eqb_neq in Hne. apply Z.ltb_ge in Hpos.
  unfold Window.add_edge, try_except_ValueError.
  unfold bind at 1. unfold lift at 1. rewrite Hint.
  unfold bind at 1. rewrite Hne. unfold ret at 1.
  unfold bind at 1. rewrite Hpos. unfold ret at 1.
  unfold bind at 1. unfold Window.on_model at 1.
  rewrite add_edge_runs, state_after_add_edge. reflexivity.
Qed.

(** However the listing and the drawing end, the edge stays inserted. *)
Lemma add_click_inserted (d : Z) :
  int distance = Ok d -> city1 <> city2 -> 0 <= d ->
  graph_model
    (state_after (Window.add_edge int str update_graph city1 city2 distance) w)
  = state_after (GraphModel.add_edge city1 city2 d) (graph_model w).
Proof.
  intros Hint Hne Hpos. unfold state_after at 1.
  rewrite (add_click_inserts d Hint Hne Hpos).
  set (w1 := {| graph_model := _; text_output := text_output w |}).
  pose proof (update_output_graph str w1) as Hgraph.
  unfold try_except_ValueError, bind.
  destruct (Window.update_output str w1) as [[[]|[k|msg]] w2];
    cbn [snd] in Hgraph.
  - unfold Window.draw.
    destruct (update_graph (graph_model w2)) as [[]|[k|msg]]; exact Hgraph.
  - exact Hgraph.
  - exact Hgraph.
Qed.

End AddClick.

(** C4 (as amended): [GraphModel.add_edge] checks nothing.  For every
    [u], [v] and [w], also when [u = v] or [w < 0], it returns normally,
    records [w] at (u,v) and at (v,u), makes [u] and [v] nodes and changes no
    other entry and no other node.  The checks belong to the caller,
    [Application.add_edge]: when [u = v] or [w < 0] it raises and catches a
    [ValueError], shows its text and leaves the graph as it was; otherwise
    it calls the core [add_edge], and the graph holds what that call
    leaves, however the listing and the drawing that follow end. *)
Theorem add_edge_checks_nothing
    (int : string -> res Z) (str : Z -> res string)
    (update_graph : GraphModel -> res unit)
    (g : GraphModel) (u v : string) (w : Z) :
  let g' := state_after (GraphModel.add_edge u v w) g in
  outcome (GraphModel.add_edge u v w) g = Ok tt /\
  entry g' u v = Some w /\
  entry g' v u = Some w /\
  (forall a b, ~ ((a = u /\ b = v) \/ (a = v /\ b = u)) ->
               entry g' a b = entry g a b) /\
  (forall a, is_node g' a = String.eqb u a || String.eqb v a || is_node g a) /\
  (forall text box, int text = Ok w ->
     let call := Window.add_edge int str update_graph u v text in
     let window := {| graph_model := g; text_output := box |} in
     (u = v ->
      call window
      = (Ok tt, {| graph_model := g;
                   text_output := Application.same_cities |})) /\
     (u <> v -> w < 0 ->
      call window
      = (Ok tt, {| graph_model := g;
                   text_output := Application.negative_distance |})) /\
     (u <> v -> 0 <= w -> graph_model (state_after call window) = g')).
Proof.
  cbv zeta.
  assert (Huv : joins (u, v, w) u v = true) by (apply joins_true; tauto).
  assert (Hvu : joins (u, v, w) v u = true) by (apply joins_true; tauto).
  split; [|split; [|split; [|split; [|split]]]].
  - unfold outcome. now rewrite add_edge_runs.
  - rewrite entry_add_edge. now rewrite Huv.
  - rewrite entry_add_edge. now rewrite Hvu.
  - intros a b Hab. rewrite entry_add_edge.
    apply (joins_false u v a b w) in Hab. now rewrite Hab.
  - intros a. apply is_node_add_edge.
  - intros text box Hint. split; [|split].
    + intros Heq.
      exact (add_click_same_cities int str update_graph u v text _ w Hint Heq).
    + intros Hne Hneg.
      exact (add_click_negative int str update_graph u v text _ w Hint Hne Hneg).
    + intros Hne Hpos.
      exact (add_click_inserted int str update_graph u v text _ w Hint Hne Hpos).
Qed.

Lemma add_edge_checks_nothing_witness :
  entry (state_after (GraphModel.add_edge "A" "A" 5) GraphModel.__init__) "A" "A"
  = Some 5 /\
  Window.add_edge (fun _ => Ok 5) (fun n => Ok (decimal n))
    (fun _ => Raise (ValueError "drawing failed")) "A" "A" "5" Window.__init__
  = (Ok tt, {| graph_model := GraphModel.__init__;
               text_output := Application.same_cities |}) /\
  Window.add_edge (fun _ => Ok (-1)) (fun n => Ok (decimal n))
    (fun _ => Raise (ValueError "drawing failed")) "A" "B" "-1" Window.__init__
  = (Ok tt, {| graph_model := GraphModel.__init__;
               text_output := Application.negative_distance |}) /\
  graph_model
    (state_after
       (Window.add_edge (fun _ => Ok 5) (fun n => Ok (decimal n))
          (fun _ => Raise (ValueError "drawing failed")) "A" "B" "5")
       Window.__init__)
  = state_after (GraphModel.add_edge "A" "B" 5) GraphModel.__init__.
Proof.
  split; [|split; [|split]].
  - exact (proj1 (proj2 (add_edge_checks_nothing
                           (fun _ => Ok 5) (fun n => Ok (decimal n))
                           (fun _ => Ok tt) GraphModel.__init__ "A" "A" 5))).
  - destruct (add_edge_checks_nothing
                (fun _ => Ok 5) (fun n => Ok (decimal n))
                (fun _ => Raise (ValueError "drawing failed"))
                GraphModel.__init__ "A" "A" 5) as (_ & _ & _ & _ & _ & H).
    destruct (H "5" "" eq_refl) as (H1 & _ & _). exact (H1 eq_refl).
  - destruct (add_edge_checks_nothing
                (fun _ => Ok (-1)) (fun n => Ok (decimal n))
                (fun _ => Raise (ValueError "drawing failed"))
                GraphModel.__init__ "A" "B" (-1)) as (_ & _ & _ & _ & _ & H).
    destruct (H "-1" "" eq_refl) as (_ & H2 & _).
    apply H2; [discriminate | reflexivity].
  - destruct (add_edge_checks_nothing
                (fun _ => Ok 5) (fun n => Ok (decimal n))
                (fun _ => Raise (ValueError "drawing failed"))
                GraphModel.__init__ "A" "B" 5) as (_ & _ & _ & _ & _ & H).
    destruct (H "5" "" eq_refl) as (_ & _ & H3).
    apply H3; discriminate.
Defined.

(** C4 fails as stated: the core [add_edge] takes a self-loop and a
    negative weight, returns normally and records them. *)
Lemma add_edge_accepts_invalid_edges :
  outcome (GraphModel.add_edge "A" "A" 5) GraphModel.__init__ = Ok tt /\
  state_after (GraphModel.add_edge "A" "A" 5) GraphModel.__init__
  = {| adjacency_matrix := [("A", [("A", 5)])] |} /\
  state_after (GraphModel.add_edge "A" "A" 5) GraphModel.__init__
  <> GraphModel.__init__ /\
  outcome (GraphModel.add_edge "A" "B" (-1)) GraphModel.__init__ = Ok tt /\
  state_after (GraphModel.add_edge "A" "B" (-1)) GraphModel.__init__
  = {| adjacency_matrix := [("A", [("B", -1)]); ("B", [("A", -1)])] |} /\
  state_after (GraphModel.add_edge "A" "B" (-1)) GraphModel.__init__
  <> GraphModel.__init__.
Proof. repeat split; discriminate. Qed.

(* ===================================================================== *)
(** * Symmetry of the adjacency structure *)
(* ===================================================================== *)

Lemma symmetric_init : symmetric GraphModel.__init__.
Proof. intros u v w. discriminate. Qed.

Lemma symmetric_perform (a : action) (g : GraphModel) :
  symmetric g -> symmetric (state_after (perform a) g).
Proof.
  intros Hsym. destruct a as [c1 c2 d|]; cbn [perform].
  - intros u v w. rewrite !entry_add_edge, (joins_sym _ v u).
    destruct (joins (c1, c2, d) u v); [easy | apply Hsym].
  - exact symmetric_init.
Qed.

Lemma run_from_app (g : GraphModel) (l1 l2 : list action) :
  run_from g (l1 ++ l2) = run_from (run_from g l1) l2.
Proof. apply fold_left_app. Qed.

Lemma symmetric_run_from (actions : list action) (g : GraphModel) :
  symmetric g -> symmetric (run_from g actions).
Proof.
  revert g. induction actions as [|a actions IH]; intros g Hsym.
  - exact Hsym.
  - apply IH, symmetric_perform, Hsym.
Qed.

(** C5: whatever [add_edge] and [reset] calls were made on a fresh
    model, every recorded entry (u,v,w) has its mirror (v,u,w); and an
    [add_edge(u, v, w)] made after them, on a pair already present or not,
    leaves [w] in both directions. *)
Theorem adjacency_stays_symmetric (actions : list action) :
  symmetric (run actions) /\
  forall u v w,
    entry (run (actions ++ [AddEdge u v w])) u v = Some w /\
    entry (run (actions ++ [AddEdge u v w])) v u = Some w.
Proof.
  split.
  - apply symmetric_run_from, symmetric_init.
  - intros u v w. unfold run. rewrite run_from_app. cbn [run_from fold_left perform].
    rewrite !entry_add_edge.
    assert (H1 : joins (u, v, w) u v = true) by (apply joins_true; tauto).
    assert (H2 : joins (u, v, w) v u = true) by (apply joins_true; tauto).
    now rewrite H1, H2.
Qed.

(* ===================================================================== *)
(** * Repeating an insertion *)
(* ===================================================================== *)

Lemma with_row_present (k : string) (m : dict (dict Z)) :
  mem k m = true -> with_row k m = m.
Proof. unfold with_row. now intros ->. Qed.

Lemma with_entry_present (a b : string) (x : Z) (m : dict (dict Z)) :
  lookup2 m a b = Some x -> with_entry a b x m = m.
Proof.
  unfold lookup2, with_entry, row_of. destruct (get a m) as [row|] eqn:E.
  - intros H. rewrite (set_same_value row b x H). now apply set_same_value.
  - discriminate.
Qed.

Lemma lookup2_mem (a b : string) (x : Z) (m : dict (dict Z)) :
  lookup2 m a b = Some x -> mem a m = true.
Proof. unfold lookup2, mem. now destruct (get a m). Qed.

Lemma with_edge_again (u v : string) (w : Z) (m : dict (dict Z)) :
  with_edge u v w (with_edge u v w m) = with_edge u v w m.
Proof.
  set (m' := with_edge u v w m).
  assert (Huv : lookup2 m' u v = Some w).
  { unfold m'. rewrite lookup2_with_edge.
    assert (H : joins (u, v, w) u v = true) by (apply joins_true; tauto).
    now rewrite H. }
  assert (Hvu : lookup2 m' v u = Some w).
  { unfold m'. rewrite lookup2_with_edge.
    assert (H : joins (u, v, w) v u = true) by (apply joins_true; tauto).
    now rewrite H. }
  unfold with_edge at 1.
  rewrite (with_row_present u m') by (eapply lookup2_mem; eassumption).
  rewrite (with_row_present v m') by (eapply lookup2_mem; eassumption).
  rewrite (with_entry_present u v w m' Huv).
  apply (with_entry_present v u w m' Hvu).
Qed.

(** C10: for distinct [u] and [v], two [add_edge(u, v, w)] calls in a row
    leave exactly the state one call leaves. *)
Theorem add_edge_idempotent (g : GraphModel) (u v : string) (w : Z) :
  u <> v ->
  state_after (GraphModel.add_edge u v w)
    (state_after (GraphModel.add_edge u v w) g)
  = state_after (GraphModel.add_edge u v w) g.
Proof.
  intros _. rewrite !state_after_add_edge. cbn [adjacency_matrix].
  now rewrite with_edge_again.
Qed.

Lemma add_edge_idempotent_witness :
  "A" <> "B" /\
  state_after (GraphModel.add_edge "A" "B" 7)
    (state_after (GraphModel.add_edge "A" "B" 7) triangle_ABC)
  = state_after (GraphModel.add_edge "A" "B" 7) triangle_ABC.
Proof.
  assert (H : "A" <> "B") by discriminate.
  exact (conj H (add_edge_idempotent triangle_ABC "A" "B" 7 H)).
Defined.

(* ===================================================================== *)
(** * What a call of [calculate_tsp_route] does *)
(* ===================================================================== *)

Lemma calculate_tsp_route_runs (start_city : string) (g : GraphModel) :
  TSPSolver.calculate_tsp_route start_city g
  = (if negb (existsb (String.eqb start_city) (NX.nodes (graph_of g)))
     then Ok (None, Message TSPSolver.start_absent)
     else best <~ search (graph_of g) start_city ;;
          Ok (snd best, Distance (fst best)),
     g).
Proof.
  unfold TSPSolver.calculate_tsp_route, GraphModel.get_graph, bind,
    GraphModel.read, ret, lift, graph_of, search, candidates.
  destruct (negb _); [reflexivity|].
  now destruct (for_each _ _ _).
Qed.

Lemma solve_runs (start_city : string) (g : GraphModel) :
  solve g start_city
  = if negb (existsb (String.eqb start_city) (NX.nodes (graph_of g)))
    then Ok (None, Message TSPSolver.start_absent)
    else best <~ search (graph_of g) start_city ;;
         Ok (snd best, Distance (fst best)).
Proof. unfold solve, outcome. now rewrite calculate_tsp_route_runs. Qed.

(** C9: whether the call returns a route, reports the start city absent or
    raises, the model holds after it the adjacency structure it held
    before. *)
Theorem solve_leaves_graph_unchanged (g : GraphModel) (start_city : string) :
  state_after (TSPSolver.calculate_tsp_route start_city) g = g /\
  adjacency_matrix (state_after (TSPSolver.calculate_tsp_route start_city) g)
  = adjacency_matrix g.
Proof.
  unfold state_after. now rewrite calculate_tsp_route_runs.
Qed.

(** C6 (as amended): after [reset()] the graph has no node, and every
    [solve] on it returns no route together with the message that the start
    city is absent from the graph: the answer given for any start city that
    is not a node, not an error of its own for the empty graph. *)
Theorem reset_then_solve (g : GraphModel) (start_city : string) :
  let g' := state_after GraphModel.reset g in
  adjacency_matrix g' = [] /\
  NX.nodes (graph_of g') = [] /\
  (forall u, is_node g' u = false) /\
  solve g' start_city = Ok (None, Message TSPSolver.start_absent).
Proof. cbv zeta. repeat split. Qed.

(** C6 fails as stated: on the empty graph the solver answers exactly
    what it answers on a graph that has nodes but not the start city, so no
    reading of its answers gives [EmptyGraphError] in the first case and
    [StartNodeNotFoundError] in the second. *)
Lemma empty_graph_reported_as_start_absent :
  solve (state_after GraphModel.reset triangle_ABC) "A"
  = Ok (None, Message "Начальный город отсутствует в графе!") /\
  solve (run [AddEdge "B" "C" 1]) "A"
  = solve (state_after GraphModel.reset triangle_ABC) "A" /\
  ~ exists classify : res (option (list string) * report) -> solve_error,
      classify (solve (state_after GraphModel.reset triangle_ABC) "A")
      = EmptyGraphError /\
      classify (solve (run [AddEdge "B" "C" 1]) "A") = StartNodeNotFoundError.
Proof.
  split; [reflexivity | split; [reflexivity|]].
  intros [classify [H1 H2]].
  change (solve (run [AddEdge "B" "C" 1]) "A")
    with (solve (state_after GraphModel.reset triangle_ABC) "A") in H2.
  congruence.
Qed.

(* ===================================================================== *)
(** * [permutations] enumerates the permutations *)
(* ===================================================================== *)

Section Permutations.
Context {A : Type}.
Implicit Types (l q : list A) (p : A * list A).

Lemma selections_perm l p :
  In p (selections l) -> Permutation l (fst p :: snd p).
Proof.
  revert p. induction l as [|x l IH]; intros p; simpl; [tauto|].
  intros [<-|Hin]; [reflexivity|].
  apply in_map_iff in Hin as [p' [<- Hin']]. simpl.
  rewrite (IH p' Hin'). apply perm_swap.
Qed.

Lemma selections_split l1 l2 (x : A) :
  In (x, l1 ++ l2) (selections (l1 ++ x :: l2)).
Proof.
  induction l1 as [|y l1 IH]; simpl; [now left|].
  right. apply in_map_iff. exists (x, l1 ++ l2). now split.
Qed.

Lemma permutations_sound n l q :
  length l = n -> In q (permutations_of_size n l) -> Permutation l q.
Proof.
  revert l q. induction n as [|n IH]; intros l q Hlen; simpl.
  - intros [<-|[]]. apply length_zero_iff_nil in Hlen. now subst.
  - intros Hin. apply in_flat_map in Hin as [p [Hp Hq]].
    apply in_map_iff in Hq as [q' [<- Hq']].
    pose proof (selections_perm l p Hp) as Hperm.
    rewrite Hperm. constructor. apply IH; [|exact Hq'].
    apply Permutation_length in Hperm. simpl in Hperm. lia.
Qed.

Lemma permutations_complete n l q :
  length l = n -> Permutation l q -> In q (permutations_of_size n l).
Proof.
  revert l q. induction n as [|n IH]; intros l q Hlen Hperm; simpl.
  - apply length_zero_iff_nil in Hlen. subst l.
    apply Permutation_nil in Hperm. subst q. now left.
  - destruct q as [|x q].
    { apply Permutation_length in Hperm. simpl in Hperm. lia. }
    assert (Hin : In x l).
    { apply (Permutation_in x (Permutation_sym Hperm)). now left. }
    apply in_split in Hin as [l1 [l2 ->]].
    apply in_flat_map. exists (x, l1 ++ l2). split.
    + apply selections_split.
    + apply in_map. apply IH.
      * cbn [snd]. rewrite length_app in Hlen |- *. cbn [length] in Hlen. lia.
      * cbn [snd]. apply Permutation_cons_inv with (a := x).
        rewrite <- Hperm. apply Permutation_middle.
Qed.

Lemma permutations_spec l q : In q (permutations l) <-> Permutation l q.
Proof.
  unfold permutations. split.
  - now apply permutations_sound.
  - now apply permutations_complete.
Qed.

End Permutations.

(* ===================================================================== *)
(** * The length of a tour *)
(* ===================================================================== *)

Lemma for_each_ext {A S : Type} (xs : list A) (f g : A -> S -> res S) (s : S) :
  (forall x s, In x xs -> f x s = g x s) ->
  for_each xs f s = for_each xs g s.
Proof.
  revert s. induction xs as [|x xs IH]; intros s Hfg; simpl; [reflexivity|].
  rewrite Hfg by now left. destruct (g x s); simpl; [|reflexivity].
  apply IH. intros y s' Hy. apply Hfg. now right.
Qed.

(** The loop over the indices of [route] walks along [route]. *)
Lemma index_loop_walks (G : NX.Graph) (pre l : list string) (a : string)
    (distance : Z) :
  for_each (seq (length pre) (length l))
    (fun i distance =>
       w <~ NX.weight G (nth i (pre ++ a :: l) "")
              (nth (i + 1) (pre ++ a :: l) "") ;;
       Ok (distance + w))
    distance
  = walk G a l distance.
Proof.
  revert pre a distance. induction l as [|b l IH]; intros pre a distance.
  - reflexivity.
  - cbn [length seq for_each walk].
    rewrite nth_middle.
    replace (nth (length pre + 1) (pre ++ a :: b :: l) "") with b.
    2:{ replace (pre ++ a :: b :: l) with ((pre ++ [a]) ++ b :: l)
          by now rewrite <- app_assoc.
        replace (length pre + 1)%nat with (length (pre ++ [a]))
          by (rewrite length_app; reflexivity).
        now rewrite nth_middle. }
    destruct (NX.weight G a b) as [w|e]; [|reflexivity]. cbn [bindR].
    specialize (IH (pre ++ [a]) b (distance + w)).
    rewrite length_app in IH. cbn [length] in IH.
    replace (length pre + 1)%nat with (S (length pre)) in IH by lia.
    rewrite <- app_assoc in IH. exact IH.
Qed.

Lemma route_distance_walks (G : NX.Graph) (a : string) (l : list string) :
  TSPSolver.route_distance G (a :: l)
  = distance <~ walk G a l 0 ;;
    w <~ NX.weight G (last (a :: l) "") a ;;
    Ok (distance + w).
Proof.
  unfold TSPSolver.route_distance.
  replace (length (a :: l) - 1)%nat with (length l) by (simpl; lia).
  pose proof (index_loop_walks G [] l a 0) as H.
  cbn [length app] in H. now rewrite H.
Qed.

Lemma walk_sum_cons (w : string -> string -> Z) (a b : string)
    (l : list string) :
  walk_sum w (a :: b :: l) = w a b + walk_sum w (b :: l).
Proof. reflexivity. Qed.

Lemma walk_sum_snoc (w : string -> string -> Z) (a s : string)
    (l : list string) :
  walk_sum w ((a :: l) ++ [s]) = walk_sum w (a :: l) + w (last (a :: l) "") s.
Proof.
  revert a. induction l as [|b l IH]; intros a.
  - simpl. lia.
  - change ((a :: b :: l) ++ [s]) with (a :: ((b :: l) ++ [s])).
    change ((b :: l) ++ [s]) with (b :: (l ++ [s])) at 1.
    rewrite walk_sum_cons. change (b :: l ++ [s]) with ((b :: l) ++ [s]).
    rewrite IH, walk_sum_cons.
    change (last (a :: b :: l) "") with (last (b :: l) ""). lia.
Qed.

Lemma weight_of_Ok (G : NX.Graph) (u v : string) (w : Z) :
  NX.weight G u v = Ok w -> weight_of G u v = w.
Proof. unfold weight_of. now intros ->. Qed.

(** When the walk ends, it has added up the weights of its edges. *)
Lemma walk_sound (G : NX.Graph) (a : string) (l : list string) (d c : Z) :
  walk G a l d = Ok c -> c = d + walk_sum (weight_of G) (a :: l).
Proof.
  revert a d. induction l as [|b l IH]; intros a d; simpl.
  - intros [= <-]. lia.
  - destruct (NX.weight G a b) as [w|e] eqn:E; [|discriminate]. cbn [bindR].
    intros H. apply IH in H. rewrite (weight_of_Ok _ _ _ _ E).
    change (match l with [] => 0 | b0 :: _ => weight_of G b b0 + walk_sum (weight_of G) l end)
      with (walk_sum (weight_of G) (b :: l)). lia.
Qed.

Lemma route_distance_sound (G : NX.Graph) (a : string) (l : list string)
    (c : Z) :
  TSPSolver.route_distance G (a :: l) = Ok c -> c = cycle_cost G a (a :: l).
Proof.
  rewrite route_distance_walks. unfold cycle_cost. rewrite walk_sum_snoc.
  destruct (walk G a l 0) as [d|e] eqn:Ew; [|discriminate]. cbn [bindR].
  destruct (NX.weight G (last (a :: l) "") a) as [w|e] eqn:E; [|discriminate].
  cbn [bindR]. intros [= <-]. apply walk_sound in Ew.
  rewrite (weight_of_Ok _ _ _ _ E). lia.
Qed.

(** Only a missing key can stop the measuring of a route. *)
Lemma weight_raises (G : NX.Graph) (u v : string) (e : exn) :
  NX.weight G u v = Raise e -> exists k, e = KeyError k.
Proof.
  unfold NX.weight. destruct (get u (NX.adj G)) as [row|].
  - destruct (get v row); [discriminate|]. intros [= <-]. now eexists.
  - intros [= <-]. now eexists.
Qed.

Lemma walk_raises (G : NX.Graph) (a : string) (l : list string) (d : Z)
    (e : exn) :
  walk G a l d = Raise e -> exists k, e = KeyError k.
Proof.
  revert a d. induction l as [|b l IH]; intros a d; simpl; [discriminate|].
  destruct (NX.weight G a b) as [w|e'] eqn:E; cbn [bindR].
  - apply IH.
  - intros [= <-]. eapply weight_raises, E.
Qed.

Lemma route_distance_raises (G : NX.Graph) (a : string) (l : list string)
    (e : exn) :
  TSPSolver.route_distance G (a :: l) = Raise e -> exists k, e = KeyError k.
Proof.
  rewrite route_distance_walks.
  destruct (walk G a l 0) as [d|e'] eqn:Ew; cbn [bindR].
  - destruct (NX.weight G (last (a :: l) "") a) as [w|e'] eqn:E; cbn [bindR];
      [discriminate|].
    intros [= <-]. eapply weight_raises, E.
  - intros [= <-]. eapply walk_raises, Ew.
Qed.

(** On distinct nodes of a complete graph the walk ends. *)
Lemma walk_total (G : NX.Graph) (a : string) (l : list string) (d : Z) :
  complete G -> NoDup (a :: l) ->
  (forall x, In x (a :: l) -> In x (NX.nodes G)) ->
  exists c, walk G a l d = Ok c.
Proof.
  intros Hc. revert a d. induction l as [|b l IH]; intros a d Hnd Hin; simpl.
  - now eexists.
  - destruct (Hc a b) as [w Hw].
    + apply Hin. now left.
    + apply Hin. right. now left.
    + inversion Hnd as [|? ? Hout _]; subst. intros ->. apply Hout. now left.
    + rewrite Hw. cbn [bindR]. apply IH.
      * now inversion Hnd.
      * intros x Hx. apply Hin. now right.
Qed.

Lemma last_In (a : string) (l : list string) : l <> [] -> In (last (a :: l) "") l.
Proof.
  revert a. induction l as [|b l IH]; intros a Hne; [congruence|].
  change (last (a :: b :: l) "") with (last (b :: l) "").
  destruct l as [|c l]; [now left|]. right. apply IH. discriminate.
Qed.

Lemma route_distance_total (G : NX.Graph) (a : string) (l : list string) :
  complete G -> NoDup (a :: l) -> l <> [] ->
  (forall x, In x (a :: l) -> In x (NX.nodes G)) ->
  exists c, TSPSolver.route_distance G (a :: l) = Ok c.
Proof.
  intros Hc Hnd Hne Hin. rewrite route_distance_walks.
  destruct (walk_total G a l 0 Hc Hnd Hin) as [d ->]. cbn [bindR].
  pose proof (last_In a l Hne) as Hlast.
  destruct (Hc (last (a :: l) "") a) as [w ->].
  - apply Hin. now right.
  - apply Hin. now left.
  - inversion Hnd as [|? ? Hout _]; subst. intros Heq. apply Hout.
    now rewrite <- Heq.
  - cbn [bindR]. now eexists.
Qed.

(* ===================================================================== *)
(** * The search over the candidates *)
(* ===================================================================== *)

Section Search.
Variables (G : NX.Graph) (start_city : string).

Let cost (q : list string) : res Z :=
  TSPSolver.route_distance G (start_city :: q).

Lemma consider_measured (q : list string) (c : Z) (m : dist)
    (r : option (list string)) :
  cost q = Ok c ->
  TSPSolver.consider G start_city q (m, r)
  = if lt_dist c m then Ok (Finite c, Some (start_city :: q)) else Ok (m, r).
Proof. unfold cost, TSPSolver.consider. now intros ->. Qed.

Lemma consider_raises (q : list string) (e : exn)
    (best : dist * option (list string)) :
  cost q = Raise e -> TSPSolver.consider G start_city q best = Raise e.
Proof. unfold cost, TSPSolver.consider. destruct best. now intros ->. Qed.

Lemma lt_dist_trans (c c' : Z) (m : dist) :
  c < c' -> lt_dist c' m = true -> lt_dist c m = true.
Proof.
  destruct m as [|d]; simpl; [reflexivity|].
  rewrite !Z.ltb_lt. lia.
Qed.

Lemma lt_dist_between (c c' : Z) (m : dist) :
  lt_dist c m = true -> lt_dist c' m = false -> c < c'.
Proof.
  destruct m as [|d]; simpl; [discriminate|].
  rewrite Z.ltb_lt, Z.ltb_ge. lia.
Qed.

(** The loop from any point on: either no candidate improves on what
    was held, or the loop ends holding the first cheapest of those that
    do. *)
Lemma scan (cands : list (list string)) (m : dist)
    (r : option (list string)) :
  (forall q, In q cands -> exists c, cost q = Ok c) ->
  exists m' r',
    for_each cands (TSPSolver.consider G start_city) (m, r) = Ok (m', r') /\
    ((m' = m /\ r' = r /\
      forall q c', In q cands -> cost q = Ok c' -> lt_dist c' m = false)
     \/
     (exists best c,
        m' = Finite c /\ r' = Some (start_city :: best) /\
        lt_dist c m = true /\
        first_cheapest G start_city cands best c)).
Proof.
  revert m r. induction cands as [|x cands IH]; intros m r Hall.
  - exists m, r. split; [reflexivity|]. left. repeat split. intros q c' [].
  - destruct (Hall x (or_introl eq_refl)) as [cx Hcx].
    assert (Hall' : forall q, In q cands -> exists c, cost q = Ok c)
      by (intros q Hq; apply Hall; now right).
    cbn [for_each]. rewrite (consider_measured x cx m r Hcx).
    destruct (lt_dist cx m) eqn:Elt; cbn [bindR].
    + destruct (IH (Finite cx) (Some (start_city :: x)) Hall')
        as [m' [r' [Hrun [[-> [-> Hnone]]|[best [c [-> [-> [Hlt Hfirst]]]]]]]]].
      * exists (Finite cx), (Some (start_city :: x)). split; [exact Hrun|].
        right. exists x, cx. repeat split; [exact Elt|].
        exists [], cands. repeat split.
        -- exact Hcx.
        -- intros q c' [].
        -- intros q c' Hq Hc'. specialize (Hnone q c' Hq Hc').
           simpl in Hnone. apply Z.ltb_ge in Hnone. exact Hnone.
      * exists (Finite c), (Some (start_city :: best)).
        split; [exact Hrun|]. right. exists best, c.
        simpl in Hlt. apply Z.ltb_lt in Hlt.
        repeat split; [eapply lt_dist_trans; eassumption|].
        destruct Hfirst as [pre [post [-> [Hc [Hpre Hpost]]]]].
        exists (x :: pre), post. repeat split; [exact Hc| |exact Hpost].
        intros q c' [<-|Hq] Hc'.
        -- unfold cost in Hcx. congruence.
        -- eapply Hpre; eassumption.
    + destruct (IH m r Hall')
        as [m' [r' [Hrun [[-> [-> Hnone]]|[best [c [-> [-> [Hlt Hfirst]]]]]]]]].
      * exists m, r. split; [exact Hrun|]. left. repeat split.
        intros q c' [<-|Hq] Hc'; [congruence | eapply Hnone; eassumption].
      * exists (Finite c), (Some (start_city :: best)).
        split; [exact Hrun|]. right. exists best, c.
        repeat split; [exact Hlt|].
        destruct Hfirst as [pre [post [-> [Hc [Hpre Hpost]]]]].
        exists (x :: pre), post. repeat split; [exact Hc| |exact Hpost].
        intros q c' [<-|Hq] Hc'.
        -- unfold cost in Hcx. rewrite Hcx in Hc'. injection Hc' as <-.
           eapply lt_dist_between; eassumption.
        -- eapply Hpre; eassumption.
Qed.

(** One candidate that cannot be measured makes the whole loop raise. *)
Lemma scan_raises (cands : list (list string))
    (best : dist * option (list string)) :
  (exists q e, In q cands /\ cost q = Raise e) ->
  exists k, for_each cands (TSPSolver.consider G start_city) best
            = Raise (KeyError k).
Proof.
  revert best. induction cands as [|x cands IH]; intros best [q [e [Hq He]]].
  - destruct Hq.
  - cbn [for_each]. destruct (cost x) as [cx|ex] eqn:Ex.
    + destruct best as [m r]. rewrite (consider_measured x cx m r Ex).
      destruct Hq as [<-|Hq]; [congruence|].
      destruct (lt_dist cx m); cbn [bindR]; apply IH; now exists q, e.
    + rewrite (consider_raises x ex best Ex). cbn [bindR].
      destruct (route_distance_raises G start_city x ex Ex) as [k ->].
      now exists k.
Qed.

Lemma cost_decided (cands : list (list string)) :
  (forall q, In q cands -> exists c, cost q = Ok c) \/
  (exists q e, In q cands /\ cost q = Raise e).
Proof.
  induction cands as [|x cands [IH|[q [e [Hq He]]]]].
  - left. intros q [].
  - destruct (cost x) as [cx|ex] eqn:Ex.
    + left. intros q [<-|Hq]; [now exists cx | now apply IH].
    + right. exists x, ex. split; [now left | exact Ex].
  - right. exists q, e. split; [now right | exact He].
Qed.

Lemma candidates_nonempty : In (TSPSolver.others start_city (NX.nodes G))
                               (candidates G start_city).
Proof. apply permutations_spec. reflexivity. Qed.

(** When every candidate can be measured, the search returns the first
    cheapest one with its length. *)
Lemma search_returns :
  (forall q, In q (candidates G start_city) -> exists c, cost q = Ok c) ->
  exists best c,
    search G start_city = Ok (Finite c, Some (start_city :: best)) /\
    first_cheapest G start_city (candidates G start_city) best c.
Proof.
  intros Hall.
  destruct (scan (candidates G start_city) Infinity None Hall)
    as [m' [r' [Hrun [[-> [-> Hnone]]|[best [c [-> [-> [_ Hfirst]]]]]]]]].
  - exfalso. destruct (Hall _ candidates_nonempty) as [c Hc].
    specialize (Hnone _ c candidates_nonempty Hc). discriminate.
  - now exists best, c.
Qed.

Lemma search_raises :
  (exists q e, In q (candidates G start_city) /\ cost q = Raise e) ->
  exists k, search G start_city = Raise (KeyError k).
Proof. apply scan_raises. Qed.

Lemma first_cheapest_least (cands : list (list string)) (best : list string)
    (c : Z) :
  first_cheapest G start_city cands best c ->
  In best cands /\
  forall q c', In q cands -> cost q = Ok c' -> c <= c'.
Proof.
  intros [pre [post [-> [Hc [Hpre Hpost]]]]]. split.
  - apply in_elt.
  - intros q c' Hq Hc'. apply in_app_or in Hq as [Hq|[<-|Hq]].
    + specialize (Hpre q c' Hq Hc'). lia.
    + unfold cost in Hc'. rewrite Hc in Hc'. injection Hc' as <-. lia.
    + exact (Hpost q c' Hq Hc').
Qed.

End Search.

(* ===================================================================== *)
(** * The graph that [get_graph] builds *)
(* ===================================================================== *)

Lemma has_node_In (u : string) (G : NX.Graph) :
  NX.has_node u G = true <-> In u (NX.nodes G).
Proof.
  unfold NX.has_node. rewrite existsb_exists. split.
  - intros [x [Hx Heq]]. apply String.eqb_eq in Heq. now subst.
  - intros Hin. exists u. split; [exact Hin | apply String.eqb_refl].
Qed.

Lemma has_node_snoc (u x : string) (l : list string) (a : dict (dict Z)) :
  NX.has_node u {| NX.nodes := l ++ [x]; NX.adj := a |}
  = String.eqb x u || NX.has_node u {| NX.nodes := l; NX.adj := a |}.
Proof.
  unfold NX.has_node. cbn [NX.nodes]. rewrite existsb_app. cbn [existsb].
  rewrite orb_false_r, orb_comm, (String.eqb_sym u x). reflexivity.
Qed.

Lemma adj_touch (u : string) (G : NX.Graph) :
  (forall x, mem x (NX.adj G) = NX.has_node x G) ->
  NX.adj (NX.touch u G) = with_row u (NX.adj G).
Proof.
  intros Hkeys. unfold NX.touch, with_row. rewrite Hkeys.
  now destruct (NX.has_node u G).
Qed.

Lemma nodes_touch (u x : string) (G : NX.Graph) :
  In x (NX.nodes (NX.touch u G)) <-> x = u \/ In x (NX.nodes G).
Proof.
  unfold NX.touch. destruct (NX.has_node u G) eqn:E.
  - apply has_node_In in E. split; [tauto|]. now intros [->|].
  - cbn [NX.nodes]. rewrite in_app_iff. simpl. intuition congruence.
Qed.

Lemma keys_touch (u : string) (G : NX.Graph) :
  (forall x, mem x (NX.adj G) = NX.has_node x G) ->
  forall x, mem x (NX.adj (NX.touch u G)) = NX.has_node x (NX.touch u G).
Proof.
  intros Hkeys x. unfold NX.touch. destruct (NX.has_node u G) eqn:E.
  - apply Hkeys.
  - cbn [NX.adj]. rewrite mem_set, has_node_snoc, Hkeys. reflexivity.
Qed.

Lemma NoDup_touch (u : string) (G : NX.Graph) :
  NoDup (NX.nodes G) -> NoDup (NX.nodes (NX.touch u G)).
Proof.
  intros Hnd. unfold NX.touch. destruct (NX.has_node u G) eqn:E; [exact Hnd|].
  cbn [NX.nodes]. apply NoDup_app; [exact Hnd | repeat constructor; simpl; tauto|].
  intros x Hin [<-|[]]. apply has_node_In in Hin. congruence.
Qed.

Lemma has_node_touch (u : string) (G : NX.Graph) :
  NX.has_node u (NX.touch u G) = true.
Proof. apply has_node_In, nodes_touch. now left. Qed.

(** On a consistent graph NetworkX's [add_edge] does to the adjacency
    dictionary what [GraphModel.add_edge] does to [adjacency_matrix]. *)
Lemma adj_add_edge (u v : string) (w : Z) (G : NX.Graph) :
  (forall x, mem x (NX.adj G) = NX.has_node x G) ->
  NX.adj (NX.add_edge u v w G) = with_edge u v w (NX.adj G).
Proof.
  intros Hkeys. unfold NX.add_edge, NX.link. cbn [NX.adj NX.nodes].
  rewrite (adj_touch v (NX.touch u G)) by now apply keys_touch.
  rewrite (adj_touch u G) by exact Hkeys.
  reflexivity.
Qed.

Lemma nodes_add_edge (u v x : string) (w : Z) (G : NX.Graph) :
  In x (NX.nodes (NX.add_edge u v w G)) <-> x = u \/ x = v \/ In x (NX.nodes G).
Proof.
  unfold NX.add_edge, NX.link. cbn [NX.nodes].
  rewrite !nodes_touch. tauto.
Qed.

Lemma consistent_empty : consistent NX.empty.
Proof.
  split; [constructor | split]; [reflexivity|]. intros u [].
Qed.

Lemma consistent_add_edge (u v : string) (w : Z) (G : NX.Graph) :
  consistent G -> consistent (NX.add_edge u v w G).
Proof.
  intros [Hnd [Hkeys Hlinked]]. split; [|split].
  - unfold NX.add_edge, NX.link. cbn [NX.nodes]. now apply NoDup_touch, NoDup_touch.
  - intros x. rewrite adj_add_edge by exact Hkeys.
    unfold with_edge. rewrite !mem_with_entry, !mem_with_row, Hkeys.
    destruct (NX.has_node x (NX.add_edge u v w G)) eqn:E.
    + apply has_node_In, nodes_add_edge in E.
      destruct E as [->|[->|E]].
      * rewrite String.eqb_refl. now rewrite !orb_true_r.
      * now rewrite String.eqb_refl.
      * apply has_node_In in E. rewrite E. now rewrite !orb_true_r.
    + destruct (String.eqb_spec v x) as [->|_].
      { exfalso. assert (H : NX.has_node x (NX.add_edge u x w G) = true)
          by (apply has_node_In, nodes_add_edge; tauto). congruence. }
      destruct (String.eqb_spec u x) as [->|_].
      { exfalso. assert (H : NX.has_node x (NX.add_edge x v w G) = true)
          by (apply has_node_In, nodes_add_edge; tauto). congruence. }
      cbn [orb]. destruct (NX.has_node x G) eqn:E'; [|reflexivity].
      exfalso. assert (H : NX.has_node x (NX.add_edge u v w G) = true)
        by (apply has_node_In, nodes_add_edge; apply has_node_In in E'; tauto).
      congruence.
  - intros x Hx. rewrite adj_add_edge by exact Hkeys.
    assert (Hedge : forall a b, joins (u, v, w) a b = true ->
              exists b' w', In b' (NX.nodes (NX.add_edge u v w G)) /\
                            lookup2 (with_edge u v w (NX.adj G)) a b' = Some w').
    { intros a b Hj. exists b, w. split.
      - apply nodes_add_edge. apply joins_true in Hj. tauto.
      - rewrite lookup2_with_edge. now rewrite Hj. }
    apply nodes_add_edge in Hx as [->|[->|Hx]].
    + apply (Hedge u v), joins_true. tauto.
    + apply (Hedge v u), joins_true. tauto.
    + destruct (Hlinked x Hx) as [y [wy [Hy Hxy]]].
      destruct (joins (u, v, w) x y) eqn:Ej; [now apply (Hedge x y)|].
      exists y, wy. split; [apply nodes_add_edge; tauto|].
      rewrite lookup2_with_edge. now rewrite Ej.
Qed.

Lemma add_row_edges (G : NX.Graph) (city1 : string) (neighbors : dict Z) :
  GraphModel.add_row G (city1, neighbors)
  = fold_left add_weighted_edge
      (map (fun nb : string * Z => (city1, fst nb, snd nb)) neighbors) G.
Proof.
  unfold GraphModel.add_row. revert G.
  induction neighbors as [|[city2 distance] neighbors IH]; intros G.
  - reflexivity.
  - cbn [fold_left map fst snd]. apply IH.
Qed.

Lemma fold_add_row_edges (m : dict (dict Z)) (G : NX.Graph) :
  fold_left GraphModel.add_row m G
  = fold_left add_weighted_edge (edges_of m) G.
Proof.
  revert G. induction m as [|[city1 neighbors] m IH]; intros G.
  - reflexivity.
  - cbn [fold_left edges_of flat_map fst snd]. rewrite fold_left_app.
    rewrite <- add_row_edges. apply IH.
Qed.

Lemma build_edges (m : dict (dict Z)) :
  GraphModel.build m = fold_left add_weighted_edge (edges_of m) NX.empty.
Proof. apply fold_add_row_edges. Qed.

Lemma consistent_fold (es : list (string * string * Z)) (G : NX.Graph) :
  consistent G -> consistent (fold_left add_weighted_edge es G).
Proof.
  revert G. induction es as [|[[u v] w] es IH]; intros G HG; [exact HG|].
  cbn [fold_left add_weighted_edge]. now apply IH, consistent_add_edge.
Qed.

Lemma consistent_graph_of (g : GraphModel) : consistent (graph_of g).
Proof.
  unfold graph_of. rewrite build_edges.
  apply consistent_fold, consistent_empty.
Qed.

Lemma nodes_fold (es : list (string * string * Z)) (G : NX.Graph) (x : string) :
  In x (NX.nodes (fold_left add_weighted_edge es G))
  <-> In x (NX.nodes G) \/ exists e, In e es /\ touches e x.
Proof.
  revert G. induction es as [|[[u v] w] es IH]; intros G.
  - simpl. split; [tauto|]. now intros [?|[e [[] _]]].
  - cbn [fold_left add_weighted_edge]. rewrite IH, nodes_add_edge. split.
    + intros [[->|[->|Hin]]|[e [He Ht]]].
      * right. exists (u, v, w). split; [now left | now left].
      * right. exists (u, v, w). split; [now left | now right].
      * now left.
      * right. exists e. split; [now right | exact Ht].
    + intros [Hin|[e [[<-|He] Ht]]].
      * tauto.
      * destruct Ht as [->| ->]; tauto.
      * right. now exists e.
Qed.

Lemma lookup2_fold (es : list (string * string * Z)) (G : NX.Graph)
    (a b : string) :
  consistent G ->
  lookup2 (NX.adj (fold_left add_weighted_edge es G)) a b
  = match last_weight es a b with
    | Some w => Some w
    | None => lookup2 (NX.adj G) a b
    end.
Proof.
  revert G. induction es as [|[[u v] w] es IH]; intros G HG; [reflexivity|].
  cbn [fold_left add_weighted_edge last_weight].
  rewrite IH by now apply consistent_add_edge.
  destruct (last_weight es a b); [reflexivity|].
  rewrite adj_add_edge by apply HG. rewrite lookup2_with_edge.
  cbn [snd]. now destruct (joins (u, v, w) a b).
Qed.

(** [G[u][v]['weight']] on a consistent graph. *)
Lemma weight_lookup2 (G : NX.Graph) (u v : string) :
  consistent G ->
  NX.weight G u v
  = if NX.has_node u G
    then match lookup2 (NX.adj G) u v with
         | Some w => Ok w
         | None => Raise (KeyError v)
         end
    else Raise (KeyError u).
Proof.
  intros [_ [Hkeys _]]. rewrite <- Hkeys. unfold NX.weight, lookup2, mem.
  destruct (get u (NX.adj G)) as [row|]; [|reflexivity].
  now destruct (get v row).
Qed.

(* ===================================================================== *)
(** * Routes and Hamiltonian cycles *)
(* ===================================================================== *)

Lemma others_In (s x : string) (l : list string) :
  In x (TSPSolver.others s l) <-> In x l /\ x <> s.
Proof.
  unfold TSPSolver.others. rewrite filter_In, negb_true_iff, String.eqb_neq.
  reflexivity.
Qed.

Lemma others_absent (s : string) (l : list string) :
  ~ In s l -> TSPSolver.others s l = l.
Proof.
  induction l as [|x l IH]; intros Hout; [reflexivity|].
  unfold TSPSolver.others in *. cbn [filter].
  destruct (String.eqb_spec x s) as [->|_].
  - exfalso. apply Hout. now left.
  - cbn [negb]. f_equal. apply IH. intros Hin. apply Hout. now right.
Qed.

Lemma others_perm (s : string) (l : list string) :
  NoDup l -> In s l -> Permutation l (s :: TSPSolver.others s l).
Proof.
  induction l as [|x l IH]; intros Hnd Hin; [destruct Hin|].
  inversion Hnd as [|? ? Hout Hnd']; subst.
  destruct (String.eqb_spec x s) as [->|Hne].
  - replace (TSPSolver.others s (s :: l)) with (TSPSolver.others s l).
    + now rewrite others_absent.
    + unfold TSPSolver.others. cbn [filter]. now rewrite String.eqb_refl.
  - destruct Hin as [->|Hin]; [congruence|].
    replace (TSPSolver.others s (x :: l)) with (x :: TSPSolver.others s l).
    + rewrite perm_swap. constructor. now apply IH.
    + unfold TSPSolver.others. cbn [filter].
      apply String.eqb_neq in Hne. now rewrite Hne.
Qed.

Lemma has_node_existsb (s : string) (G : NX.Graph) :
  existsb (String.eqb s) (NX.nodes G) = NX.has_node s G.
Proof. reflexivity. Qed.

Section Routes.
Variables (G : NX.Graph) (start_city : string).
Hypothesis Hnd : NoDup (NX.nodes G).
Hypothesis Hstart : In start_city (NX.nodes G).

(** A candidate, with the start city in front, visits every node once. *)
Lemma candidate_route (q : list string) :
  In q (candidates G start_city) ->
  Permutation (NX.nodes G) (start_city :: q).
Proof.
  intros Hq. apply permutations_spec in Hq.
  rewrite (others_perm start_city (NX.nodes G) Hnd Hstart).
  now constructor.
Qed.

Lemma candidate_hamiltonian (q : list string) :
  In q (candidates G start_city) ->
  hamiltonian G start_city (start_city :: q).
Proof.
  intros Hq. pose proof (candidate_route q Hq) as Hperm.
  split; [reflexivity | split].
  - eapply Permutation_NoDup; eassumption.
  - intros x. split; intros Hx.
    + eapply Permutation_in; [symmetry|]; eassumption.
    + eapply Permutation_in; eassumption.
Qed.

Lemma hamiltonian_candidate (route : list string) :
  hamiltonian G start_city route ->
  exists q, route = start_city :: q /\ In q (candidates G start_city).
Proof.
  intros [Hhd [Hnd' Hsame]]. destruct route as [|a q]; [discriminate|].
  injection Hhd as ->. exists q. split; [reflexivity|].
  apply permutations_spec.
  apply Permutation_cons_inv with (a := start_city).
  rewrite <- (others_perm start_city (NX.nodes G) Hnd Hstart).
  apply NoDup_Permutation; [exact Hnd | exact Hnd'|].
  intros x. symmetry. apply Hsame.
Qed.

End Routes.

(** The search ends normally exactly when every candidate is measured. *)
Lemma search_measured (G : NX.Graph) (start_city : string)
    (best : dist * option (list string)) :
  search G start_city = Ok best ->
  forall q, In q (candidates G start_city) ->
            exists c, TSPSolver.route_distance G (start_city :: q) = Ok c.
Proof.
  intros Hrun.
  destruct (cost_decided G start_city (candidates G start_city)) as [Hall|Hbad].
  - exact Hall.
  - apply search_raises in Hbad as [k Hk]. congruence.
Qed.

(** What a successful call returns. *)
Lemma solve_success (g : GraphModel) (start_city : string)
    (route : list string) (rep : report) :
  solve g start_city = Ok (Some route, rep) ->
  In start_city (NX.nodes (graph_of g)) /\
  exists best c,
    route = start_city :: best /\ rep = Distance (Finite c) /\
    first_cheapest (graph_of g) start_city
      (candidates (graph_of g) start_city) best c.
Proof.
  rewrite solve_runs, has_node_existsb.
  destruct (NX.has_node start_city (graph_of g)) eqn:E; cbn [negb];
    [|discriminate].
  apply has_node_In in E.
  destruct (search (graph_of g) start_city) as [best|e] eqn:Es;
    [|discriminate].
  destruct (search_returns (graph_of g) start_city
              (search_measured _ _ _ Es)) as [b [c [Hb Hfirst]]].
  rewrite Hb in Es. injection Es as <-. cbn [bindR fst snd].
  intros [= <- <-]. split; [exact E|]. now exists b, c.
Qed.

(** C2 (as amended): a successful [solve] on a graph with [n] nodes
    returns a route of exactly [n] entries: the start city first, then the
    remaining [n-1] nodes in some order, none repeated and none left out.
    The route is not closed by a second entry for the start city. *)
Theorem solve_route_shape (g : GraphModel) (start_city : string)
    (route : list string) (rep : report) :
  solve g start_city = Ok (Some route, rep) ->
  let nodes := NX.nodes (graph_of g) in
  In start_city nodes /\
  length route = length nodes /\
  hd_error route = Some start_city /\
  Permutation (tl route) (TSPSolver.others start_city nodes) /\
  NoDup route /\
  (forall x, In x route <-> In x nodes).
Proof.
  intros Hsolve. cbv zeta.
  destruct (solve_success g start_city route rep Hsolve)
    as [Hstart [best [c [-> [_ Hfirst]]]]].
  destruct (consistent_graph_of g) as [Hnd _].
  apply first_cheapest_least in Hfirst as [Hbest _].
  pose proof (candidate_route _ _ Hnd Hstart best Hbest) as Hperm.
  destruct (candidate_hamiltonian _ _ Hnd Hstart best Hbest) as [_ [Hnd' Hsame]].
  repeat split.
  - exact Hstart.
  - symmetry. now apply Permutation_length.
  - cbn [tl]. symmetry. now apply permutations_spec.
  - exact Hnd'.
  - apply Hsame.
  - apply Hsame.
Qed.

Lemma solve_route_shape_witness :
  solve triangle_ABC "A" = Ok (Some ["A"; "B"; "C"], Distance (Finite 45)) /\
  length ["A"; "B"; "C"] = length (NX.nodes (graph_of triangle_ABC)).
Proof.
  assert (H : solve triangle_ABC "A"
              = Ok (Some ["A"; "B"; "C"], Distance (Finite 45)))
    by reflexivity.
  exact (conj H (proj1 (proj2 (solve_route_shape triangle_ABC "A" _ _ H)))).
Defined.

(** C2 fails as stated: on the two-node graph with the edge A-B the route
    returned has two entries, not three, and does not end with the start
    city. *)
Lemma route_is_not_closed :
  solve (run [AddEdge "A" "B" 7]) "A"
  = Ok (Some ["A"; "B"], Distance (Finite 14)) /\
  NX.nodes (graph_of (run [AddEdge "A" "B" 7])) = ["A"; "B"] /\
  length ["A"; "B"] <> S (length (NX.nodes (graph_of (run [AddEdge "A" "B" 7])))) /\
  last ["A"; "B"] "" <> "A".
Proof. repeat split; discriminate. Qed.

(* ===================================================================== *)
(** * The route returned is a shortest one *)
(* ===================================================================== *)

Lemma others_length (s : string) (l : list string) :
  NoDup l -> In s l -> length l = S (length (TSPSolver.others s l)).
Proof.
  intros Hnd Hin. now rewrite (Permutation_length (others_perm s l Hnd Hin)).
Qed.

Lemma candidate_measured (G : NX.Graph) (start_city : string)
    (q : list string) :
  consistent G -> complete G -> (2 <= length (NX.nodes G))%nat ->
  In start_city (NX.nodes G) ->
  In q (candidates G start_city) ->
  exists c, TSPSolver.route_distance G (start_city :: q) = Ok c.
Proof.
  intros [Hnd _] Hc Hn Hstart Hq.
  pose proof (candidate_route G start_city Hnd Hstart q Hq) as Hperm.
  apply route_distance_total.
  - exact Hc.
  - eapply Permutation_NoDup; eassumption.
  - intros ->. apply Permutation_length in Hperm. simpl in Hperm. lia.
  - intros x Hx. eapply Permutation_in; [symmetry|]; eassumption.
Qed.

Lemma complete_triangle : complete (graph_of triangle_ABC).
Proof.
  intros u v Hu Hv Hne. simpl in Hu, Hv.
  destruct Hu as [<-|[<-|[<-|[]]]]; destruct Hv as [<-|[<-|[<-|[]]]];
    try congruence; now eexists.
Qed.


(* ===================================================================== *)
(** * A graph with one node *)
(* ===================================================================== *)

(** C7 (as amended): when the graph has the single node [a], which only a
    self-loop at [a] produces, [solve(a)] returns the route [[a]], of one
    entry, and for its cost the weight of that self-loop. *)
Theorem solve_single_node (g : GraphModel) (a : string) :
  NX.nodes (graph_of g) = [a] ->
  exists w,
    NX.weight (graph_of g) a a = Ok w /\
    solve g a = Ok (Some [a], Distance (Finite w)).
Proof.
  intros Hnodes. pose proof (consistent_graph_of g) as HG.
  assert (Hin : In a (NX.nodes (graph_of g))) by (rewrite Hnodes; now left).
  destruct HG as [Hnd [Hkeys Hlinked]].
  destruct (Hlinked a Hin) as [v [w [Hv Haw]]].
  rewrite Hnodes in Hv. destruct Hv as [<-|[]].
  assert (Hw : NX.weight (graph_of g) a a = Ok w).
  { rewrite weight_lookup2 by (repeat split; assumption).
    apply has_node_In in Hin. now rewrite Hin, Haw. }
  exists w. split; [exact Hw|].
  rewrite solve_runs, has_node_existsb.
  apply has_node_In in Hin. rewrite Hin. cbn [negb].
  unfold search, candidates. rewrite Hnodes.
  unfold TSPSolver.others. cbn [filter]. rewrite String.eqb_refl.
  cbn [negb permutations length permutations_of_size for_each].
  unfold TSPSolver.consider, TSPSolver.route_distance.
  cbn [length Nat.sub seq for_each bindR last nth]. rewrite Hw.
  reflexivity.
Qed.

Lemma solve_single_node_witness :
  exists w,
    NX.weight (graph_of (run [AddEdge "A" "A" 5])) "A" "A" = Ok w /\
    solve (run [AddEdge "A" "A" 5]) "A" = Ok (Some ["A"], Distance (Finite w)).
Proof. exact (solve_single_node (run [AddEdge "A" "A" 5]) "A" eq_refl). Defined.

(** C7 fails as stated: the graph whose only node is A, made by the
    self-loop (A, A, 5), gets the route [A] and the cost 5, not [A, A] and
    0. *)
Lemma single_node_route_is_one_entry :
  NX.nodes (graph_of (run [AddEdge "A" "A" 5])) = ["A"] /\
  solve (run [AddEdge "A" "A" 5]) "A"
  = Ok (Some ["A"], Distance (Finite 5)) /\
  solve (run [AddEdge "A" "A" 5]) "A"
  <> Ok (Some ["A"; "A"], Distance (Finite 0)).
Proof. repeat split; discriminate. Qed.

(* ===================================================================== *)
(** * A missing edge *)
(* ===================================================================== *)

Lemma walk_snoc (G : NX.Graph) (a s : string) (l : list string) (d : Z) :
  walk G a (l ++ [s]) d
  = d' <~ walk G a l d ;;
    w <~ NX.weight G (last (a :: l) "") s ;;
    Ok (d' + w).
Proof.
  revert a d. induction l as [|b l IH]; intros a d.
  - cbn [app walk last bindR]. now destruct (NX.weight G a s).
  - cbn [app walk]. destruct (NX.weight G a b) as [w|e]; [|reflexivity].
    cbn [bindR]. rewrite IH. reflexivity.
Qed.

(** Measuring a route is walking it and back to its first entry. *)
Lemma route_distance_closed_walk (G : NX.Graph) (a : string)
    (l : list string) :
  TSPSolver.route_distance G (a :: l) = walk G a (l ++ [a]) 0.
Proof. now rewrite route_distance_walks, walk_snoc. Qed.

Lemma walk_edges (G : NX.Graph) (a : string) (l : list string) (d c : Z) :
  walk G a l d = Ok c ->
  forall pre x y post, a :: l = pre ++ x :: y :: post ->
                       exists w, NX.weight G x y = Ok w.
Proof.
  revert a d. induction l as [|b l IH]; intros a d Hrun pre x y post Heq.
  - destruct pre as [|? [|? ?]]; discriminate.
  - cbn [walk] in Hrun.
    destruct (NX.weight G a b) as [w|e] eqn:E; [|discriminate].
    cbn [bindR] in Hrun. destruct pre as [|a' pre].
    + injection Heq as <- <- _. now exists w.
    + injection Heq as _ Heq. eapply IH; eassumption.
Qed.

(** A candidate cycle with two consecutive nodes that no edge joins makes
    the whole call raise a [KeyError]: nothing is returned. *)
Lemma missing_edge_raises (g : GraphModel) (start_city : string)
    (q pre post : list string) (x y : string) :
  In start_city (NX.nodes (graph_of g)) ->
  In q (candidates (graph_of g) start_city) ->
  (start_city :: q) ++ [start_city] = pre ++ x :: y :: post ->
  (forall w, NX.weight (graph_of g) x y <> Ok w) ->
  exists k, solve g start_city = Raise (KeyError k).
Proof.
  intros Hstart Hq Hsplit Hmissing.
  rewrite solve_runs, has_node_existsb.
  apply has_node_In in Hstart. rewrite Hstart. cbn [negb].
  destruct (search_raises (graph_of g) start_city) as [k ->].
  - destruct (TSPSolver.route_distance (graph_of g) (start_city :: q))
      as [c|e] eqn:E.
    + exfalso. rewrite route_distance_closed_walk in E.
      destruct (walk_edges _ _ _ _ _ E pre x y post Hsplit) as [w Hw].
      exact (Hmissing w Hw).
    + now exists q, e.
  - now exists k.
Qed.

(** C3: with the edges (A,B,1) and (A,C,1) and no edge between B and C,
    [solve(A)] neither returns an error nor a route: the [KeyError] of the
    missing key escapes the call. *)
Theorem incomplete_graph_raises_KeyError :
  solve (run [AddEdge "A" "B" 1; AddEdge "A" "C" 1]) "A"
  = Raise (KeyError "C") /\
  state_after (TSPSolver.calculate_tsp_route "A")
    (run [AddEdge "A" "B" 1; AddEdge "A" "C" 1])
  = run [AddEdge "A" "B" 1; AddEdge "A" "C" 1].
Proof. split; reflexivity. Qed.

(* ===================================================================== *)
(** * The same content entered in another order *)
(* ===================================================================== *)

Lemma well_formed_init : well_formed [].
Proof. split; [constructor | intros k row []]. Qed.

Lemma well_formed_set (k : string) (row : dict Z) (m : dict (dict Z)) :
  well_formed m -> NoDup (keys row) -> well_formed (set k row m).
Proof.
  intros [Hnd Hrows] Hrow. split.
  - now apply NoDup_keys_set.
  - intros k' row' Hin. apply In_set in Hin as [[_ ->]|Hin]; [exact Hrow|].
    eapply Hrows, Hin.
Qed.

Lemma well_formed_row_of (k : string) (m : dict (dict Z)) :
  well_formed m -> NoDup (keys (row_of k m)).
Proof.
  intros [_ Hrows]. unfold row_of. destruct (get k m) as [row|] eqn:E.
  - eapply Hrows, get_In, E.
  - constructor.
Qed.

Lemma well_formed_with_row (k : string) (m : dict (dict Z)) :
  well_formed m -> well_formed (with_row k m).
Proof.
  intros Hwf. unfold with_row. destruct (mem k m); [exact Hwf|].
  apply well_formed_set; [exact Hwf | constructor].
Qed.

Lemma well_formed_with_entry (k1 k2 : string) (v : Z) (m : dict (dict Z)) :
  well_formed m -> well_formed (with_entry k1 k2 v m).
Proof.
  intros Hwf. apply well_formed_set; [exact Hwf|].
  now apply NoDup_keys_set, well_formed_row_of.
Qed.

Lemma well_formed_perform (a : action) (g : GraphModel) :
  well_formed (adjacency_matrix g) ->
  well_formed (adjacency_matrix (state_after (perform a) g)).
Proof.
  intros Hwf. destruct a as [u v w|]; cbn [perform].
  - rewrite state_after_add_edge. cbn [adjacency_matrix]. unfold with_edge.
    now repeat (apply well_formed_with_entry || apply well_formed_with_row).
  - exact well_formed_init.
Qed.

Lemma well_formed_run_from (actions : list action) (g : GraphModel) :
  well_formed (adjacency_matrix g) ->
  well_formed (adjacency_matrix (run_from g actions)).
Proof.
  revert g. induction actions as [|a actions IH]; intros g Hwf; [exact Hwf|].
  cbn [run_from fold_left]. apply IH. now apply well_formed_perform.
Qed.

Lemma well_formed_run (actions : list action) :
  well_formed (adjacency_matrix (run actions)).
Proof. apply well_formed_run_from, well_formed_init. Qed.

Lemma symmetric_run (actions : list action) : symmetric (run actions).
Proof. apply symmetric_run_from, symmetric_init. Qed.

Lemma edges_of_lookup2 (m : dict (dict Z)) (u v : string) (w : Z) :
  well_formed m -> (In (u, v, w) (edges_of m) <-> lookup2 m u v = Some w).
Proof.
  intros [Hnd Hrows]. unfold edges_of, lookup2. rewrite in_flat_map. split.
  - intros [[k row] [Hin Hrow]]. cbn [fst snd] in Hrow.
    apply in_map_iff in Hrow as [[k2 x] [[= <- <- <-] Hx]].
    rewrite (In_get m k row Hnd Hin).
    apply In_get; [eapply Hrows, Hin | exact Hx].
  - destruct (get u m) as [row|] eqn:E; [|discriminate]. intros Hv.
    exists (u, row). split; [now apply get_In|]. cbn [fst snd].
    apply in_map_iff. exists (v, w). split; [reflexivity | now apply get_In].
Qed.

Lemma last_weight_Some (es : list (string * string * Z)) (a b : string)
    (w : Z) :
  last_weight es a b = Some w ->
  exists e, In e es /\ joins e a b = true /\ snd e = w.
Proof.
  induction es as [|e es IH]; [discriminate|]. cbn [last_weight].
  destruct (last_weight es a b) as [w'|].
  - intros [= ->]. destruct (IH eq_refl) as [e' [He' H]].
    exists e'. split; [now right | exact H].
  - destruct (joins e a b) eqn:Ej; [|discriminate]. intros [= <-].
    exists e. split; [now left | now split].
Qed.

Lemma last_weight_None (es : list (string * string * Z)) (a b : string) :
  last_weight es a b = None -> forall e, In e es -> joins e a b = false.
Proof.
  induction es as [|e es IH]; intros H e' []; cbn [last_weight] in H;
    destruct (last_weight es a b); try discriminate.
  - subst e'. now destruct (joins e a b).
  - now apply IH.
Qed.

Section Reachable.
Variable g : GraphModel.
Hypothesis Hwf : well_formed (adjacency_matrix g).
Hypothesis Hsym : symmetric g.

Lemma joining_edge (e : string * string * Z) (a b : string) :
  In e (edges_of (adjacency_matrix g)) -> joins e a b = true ->
  entry g a b = Some (snd e).
Proof.
  destruct e as [[u v] w]. intros Hin Hj.
  apply edges_of_lookup2 in Hin; [|exact Hwf].
  apply joins_true in Hj as [[-> ->]|[-> ->]]; [exact Hin|].
  now apply Hsym.
Qed.

(** NetworkX holds the weights [adjacency_matrix] holds. *)
Lemma graph_entry (a b : string) :
  lookup2 (NX.adj (graph_of g)) a b = entry g a b.
Proof.
  unfold graph_of. rewrite build_edges.
  rewrite lookup2_fold by exact consistent_empty.
  destruct (last_weight (edges_of (adjacency_matrix g)) a b) as [w|] eqn:E.
  - apply last_weight_Some in E as [e [He [Hj <-]]].
    symmetry. now apply joining_edge.
  - cbn. destruct (entry g a b) as [w|] eqn:Eab; [|reflexivity].
    exfalso. apply edges_of_lookup2 in Eab; [|exact Hwf].
    pose proof (last_weight_None _ _ _ E _ Eab) as Hj.
    assert (Ht : joins (a, b, w) a b = true) by (apply joins_true; tauto).
    congruence.
Qed.

(** Its nodes are the cities that have an entry. *)
Lemma graph_nodes (x : string) :
  In x (NX.nodes (graph_of g)) <-> exists y w, entry g x y = Some w.
Proof.
  unfold graph_of. rewrite build_edges, nodes_fold. cbn [NX.empty NX.nodes].
  split.
  - intros [[]|[[[u v] w] [He [->| ->]]]];
      apply edges_of_lookup2 in He; try exact Hwf.
    + now exists v, w.
    + exists u, w. now apply Hsym.
  - intros [y [w Hxy]]. right. exists (x, y, w). split.
    + now apply edges_of_lookup2.
    + now left.
Qed.

End Reachable.

(** After calls of [add_edge] and [reset] every key of [adjacency_matrix]
    has an entry, so the nodes NetworkX sees are those keys, and the graph
    is complete when every two distinct keys have an entry. *)
Lemma populated_run_from (actions : list action) (g : GraphModel) :
  (forall u, is_node g u = true -> exists y w, entry g u y = Some w) ->
  forall u, is_node (run_from g actions) u = true ->
            exists y w, entry (run_from g actions) u y = Some w.
Proof.
  revert g. induction actions as [|a actions IH]; intros g Hg; [exact Hg|].
  cbn [run_from fold_left]. apply IH. clear IH.
  destruct a as [c1 c2 d|]; cbn [perform]; [|discriminate].
  intros u. rewrite is_node_add_edge. intros Hu.
  destruct (joins (c1, c2, d) u c2) eqn:E1.
  { exists c2, d. rewrite entry_add_edge. now rewrite E1. }
  destruct (joins (c1, c2, d) u c1) eqn:E2.
  { exists c1, d. rewrite entry_add_edge. now rewrite E2. }
  apply joins_false in E1, E2.
  destruct (String.eqb_spec c1 u) as [->|_]; [tauto|].
  destruct (String.eqb_spec c2 u) as [->|_]; [tauto|].
  destruct (Hg u Hu) as [y [w Hy]].
  destruct (joins (c1, c2, d) u y) eqn:E3.
  - exists y, d. rewrite entry_add_edge. now rewrite E3.
  - exists y, w. rewrite entry_add_edge. now rewrite E3.
Qed.

Lemma nodes_run (actions : list action) (x : string) :
  In x (NX.nodes (graph_of (run actions))) <-> is_node (run actions) x = true.
Proof.
  rewrite graph_nodes by (apply well_formed_run || apply symmetric_run).
  split.
  - intros [y [w H]]. eapply lookup2_mem, H.
  - apply populated_run_from. discriminate.
Qed.

Lemma complete_run (actions : list action) :
  complete (graph_of (run actions)) <->
  forall u v, is_node (run actions) u = true ->
              is_node (run actions) v = true -> u <> v ->
              exists w, entry (run actions) u v = Some w.
Proof.
  pose proof (consistent_graph_of (run actions)) as HG.
  assert (Hw : forall u v, In u (NX.nodes (graph_of (run actions))) ->
             NX.weight (graph_of (run actions)) u v
             = match entry (run actions) u v with
               | Some w => Ok w
               | None => Raise (KeyError v)
               end).
  { intros u v Hu. rewrite weight_lookup2 by exact HG.
    apply has_node_In in Hu. rewrite Hu.
    now rewrite graph_entry
      by (apply well_formed_run || apply symmetric_run). }
  split.
  - intros Hc u v Hu Hv Hne. apply nodes_run in Hu, Hv.
    destruct (Hc u v Hu Hv Hne) as [w H]. rewrite (Hw u v Hu) in H.
    destruct (entry (run actions) u v) as [w'|]; [now exists w' | discriminate].
  - intros He u v Hu Hv Hne. rewrite (Hw u v Hu).
    apply nodes_run in Hu, Hv. destruct (He u v Hu Hv Hne) as [w ->].
    now exists w.
Qed.

Lemma weight_same (G1 G2 : NX.Graph) :
  consistent G1 -> consistent G2 ->
  (forall x, In x (NX.nodes G1) <-> In x (NX.nodes G2)) ->
  (forall a b, lookup2 (NX.adj G1) a b = lookup2 (NX.adj G2) a b) ->
  forall a b, NX.weight G1 a b = NX.weight G2 a b.
Proof.
  intros H1 H2 Hnodes Hadj a b. rewrite !weight_lookup2 by assumption.
  rewrite Hadj.
  destruct (NX.has_node a G1) eqn:E1, (NX.has_node a G2) eqn:E2;
    try reflexivity; exfalso.
  - apply has_node_In, Hnodes, has_node_In in E1. congruence.
  - apply has_node_In, Hnodes, has_node_In in E2. congruence.
Qed.

Lemma route_distance_same (G1 G2 : NX.Graph) (route : list string) :
  (forall a b, NX.weight G1 a b = NX.weight G2 a b) ->
  TSPSolver.route_distance G1 route = TSPSolver.route_distance G2 route.
Proof.
  intros Hw. unfold TSPSolver.route_distance.
  rewrite Hw. erewrite for_each_ext; [reflexivity|].
  intros i d _. now rewrite Hw.
Qed.

Lemma candidates_same (G1 G2 : NX.Graph) (s : string) (q : list string) :
  NoDup (NX.nodes G1) -> NoDup (NX.nodes G2) ->
  (forall x, In x (NX.nodes G1) <-> In x (NX.nodes G2)) ->
  In q (candidates G1 s) -> In q (candidates G2 s).
Proof.
  intros Hnd1 Hnd2 Hnodes Hq. apply permutations_spec in Hq.
  apply permutations_spec. rewrite <- Hq.
  apply NoDup_Permutation.
  - now apply NoDup_filter.
  - now apply NoDup_filter.
  - intros x. rewrite !others_In, Hnodes. reflexivity.
Qed.

(** Two consistent graphs with the same nodes and the same weights give
    calls that end the same way, up to the choice among the cheapest
    routes. *)
Lemma solve_same_graph (g1 g2 : GraphModel) (s : string) :
  (forall x, In x (NX.nodes (graph_of g1)) <-> In x (NX.nodes (graph_of g2))) ->
  (forall a b, lookup2 (NX.adj (graph_of g1)) a b
               = lookup2 (NX.adj (graph_of g2)) a b) ->
  (solve g1 s = Ok (None, Message TSPSolver.start_absent) /\
   solve g2 s = Ok (None, Message TSPSolver.start_absent)) \/
  (exists k1 k2,
     solve g1 s = Raise (KeyError k1) /\ solve g2 s = Raise (KeyError k2)) \/
  (exists best1 best2 cost,
     solve g1 s = Ok (Some (s :: best1), Distance (Finite cost)) /\
     solve g2 s = Ok (Some (s :: best2), Distance (Finite cost)) /\
     first_cheapest (graph_of g1) s (candidates (graph_of g1) s) best1 cost /\
     first_cheapest (graph_of g2) s (candidates (graph_of g2) s) best2 cost).
Proof.
  intros Hnodes Hadj.
  pose proof (consistent_graph_of g1) as HG1.
  pose proof (consistent_graph_of g2) as HG2.
  set (G1 := graph_of g1) in *. set (G2 := graph_of g2) in *.
  pose proof (weight_same G1 G2 HG1 HG2 Hnodes Hadj) as Hw.
  assert (Hcost : forall q, TSPSolver.route_distance G1 (s :: q)
                            = TSPSolver.route_distance G2 (s :: q))
    by (intros q; now apply route_distance_same).
  destruct HG1 as [Hnd1 _], HG2 as [Hnd2 _].
  assert (Hc12 : forall q, In q (candidates G1 s) -> In q (candidates G2 s))
    by (intros q; now apply candidates_same).
  assert (Hc21 : forall q, In q (candidates G2 s) -> In q (candidates G1 s)).
  { intros q. apply candidates_same; try assumption.
    intros x. symmetry. apply Hnodes. }
  rewrite !solve_runs, !has_node_existsb. fold G1 G2.
  destruct (NX.has_node s G1) eqn:E1, (NX.has_node s G2) eqn:E2; cbn [negb].
  2:{ exfalso. apply has_node_In, Hnodes, has_node_In in E1. congruence. }
  2:{ exfalso. apply has_node_In, Hnodes, has_node_In in E2. congruence. }
  2:{ left. now split. }
  right.
  destruct (cost_decided G1 s (candidates G1 s)) as [Hall1|[q [e [Hq He]]]].
  - right.
    assert (Hall2 : forall q, In q (candidates G2 s) ->
              exists c, TSPSolver.route_distance G2 (s :: q) = Ok c).
    { intros q Hq. rewrite <- Hcost. now apply Hall1, Hc21. }
    destruct (search_returns G1 s Hall1) as [b1 [c1 [Hr1 Hf1]]].
    destruct (search_returns G2 s Hall2) as [b2 [c2 [Hr2 Hf2]]].
    destruct (first_cheapest_least G1 s _ _ _ Hf1) as [Hin1 Hleast1].
    destruct (first_cheapest_least G2 s _ _ _ Hf2) as [Hin2 Hleast2].
    pose proof Hf1 as [_ [_ [_ [Hcost1 _]]]].
    pose proof Hf2 as [_ [_ [_ [Hcost2 _]]]].
    assert (c1 <= c2).
    { apply (Hleast1 b2 c2); [now apply Hc21 | now rewrite Hcost]. }
    assert (c2 <= c1).
    { apply (Hleast2 b1 c1); [now apply Hc12 | now rewrite <- Hcost]. }
    assert (c2 = c1) by lia. subst c2.
    exists b1, b2, c1. rewrite Hr1, Hr2. cbn [bindR fst snd].
    repeat split; assumption.
  - left.
    destruct (search_raises G1 s) as [k1 ->]; [now exists q, e|].
    destruct (search_raises G2 s) as [k2 ->].
    { exists q, e. split; [now apply Hc12 | now rewrite <- Hcost]. }
    now exists k1, k2.
Qed.

(** C8 (as amended): two sequences of calls that leave the same content
    make every [solve] end the same way: both report the start city absent,
    or both raise a [KeyError], or both return a route of the same, least,
    cost.  The routes themselves may differ: the cities other than the start
    are not sorted but taken in the order in which the graph first met them,
    and each call returns the first cheapest candidate of its own
    enumeration. *)
Theorem solve_same_content (actions1 actions2 : list action) (s : string) :
  same_content (run actions1) (run actions2) ->
  let g1 := run actions1 in
  let g2 := run actions2 in
  (solve g1 s = Ok (None, Message TSPSolver.start_absent) /\
   solve g2 s = Ok (None, Message TSPSolver.start_absent)) \/
  (exists k1 k2,
     solve g1 s = Raise (KeyError k1) /\ solve g2 s = Raise (KeyError k2)) \/
  (exists best1 best2 cost,
     solve g1 s = Ok (Some (s :: best1), Distance (Finite cost)) /\
     solve g2 s = Ok (Some (s :: best2), Distance (Finite cost)) /\
     first_cheapest (graph_of g1) s (candidates (graph_of g1) s) best1 cost /\
     first_cheapest (graph_of g2) s (candidates (graph_of g2) s) best2 cost).
Proof.
  intros [_ Hentry]. cbv zeta. apply solve_same_graph.
  - intros x.
    rewrite !graph_nodes by (apply well_formed_run || apply symmetric_run).
    split; intros [y [w H]]; exists y, w; [rewrite <- Hentry | rewrite Hentry];
      exact H.
  - intros a b.
    rewrite !graph_entry by (apply well_formed_run || apply symmetric_run).
    apply Hentry.
Qed.

Lemma triangle_ABC_matrix :
  adjacency_matrix triangle_ABC
  = [("A", [("B", 10); ("C", 20)]); ("B", [("A", 10); ("C", 15)]);
     ("C", [("B", 15); ("A", 20)])].
Proof. reflexivity. Qed.

Lemma triangle_ACB_matrix :
  adjacency_matrix triangle_ACB
  = [("A", [("C", 20); ("B", 10)]); ("C", [("A", 20); ("B", 15)]);
     ("B", [("C", 15); ("A", 10)])].
Proof. reflexivity. Qed.

Ltac by_cases_on_keys :=
  repeat match goal with
         | |- context [String.eqb ?a ?b] =>
             destruct (String.eqb_spec a b); subst; cbn [get]
         end;
  try reflexivity; try congruence.

Lemma triangles_same_content : same_content triangle_ABC triangle_ACB.
Proof.
  split.
  - intros u. unfold is_node, mem.
    rewrite triangle_ABC_matrix, triangle_ACB_matrix. cbn [get].
    by_cases_on_keys.
  - intros u v. unfold entry, lookup2.
    rewrite triangle_ABC_matrix, triangle_ACB_matrix. cbn [get].
    by_cases_on_keys.
Qed.

Lemma solve_same_content_witness :
  exists best1 best2 cost,
    solve triangle_ABC "A" = Ok (Some ("A" :: best1), Distance (Finite cost)) /\
    solve triangle_ACB "A" = Ok (Some ("A" :: best2), Distance (Finite cost)).
Proof.
  destruct (solve_same_content
              [AddEdge "A" "B" 10; AddEdge "B" "C" 15; AddEdge "A" "C" 20]
              [AddEdge "A" "C" 20; AddEdge "B" "C" 15; AddEdge "A" "B" 10]
              "A" triangles_same_content)
    as [[H _]|[[k1 [k2 [H _]]]|[best1 [best2 [cost [H1 [H2 _]]]]]]].
  - discriminate H.
  - discriminate H.
  - exists best1, best2, cost. split; [exact H1 | exact H2].
Defined.

(** C8 fails as stated: the triangle A-B 10, B-C 15, A-C 20 entered in two
    orders has the same content both times, and [solve(A)] returns
    A, B, C for one order and A, C, B for the other, both of cost 45. *)
Lemma route_depends_on_insertion_order :
  same_content triangle_ABC triangle_ACB /\
  solve triangle_ABC "A" = Ok (Some ["A"; "B"; "C"], Distance (Finite 45)) /\
  solve triangle_ACB "A" = Ok (Some ["A"; "C"; "B"], Distance (Finite 45)) /\
  solve triangle_ABC "A" <> solve triangle_ACB "A".
Proof.
  split; [exact triangles_same_content|].
  repeat split. discriminate.
Qed.

(* ===================================================================== *)
(** * How a call of [calculate_tsp_route] can end *)
(* ===================================================================== *)

Lemma consecutive_cons (a x y : string) (l : list string) :
  consecutive l x y -> consecutive (a :: l) x y.
Proof. intros [pre [post ->]]. now exists (a :: pre), post. Qed.

Lemma consecutive_In (l : list string) (x y : string) :
  consecutive l x y -> In x l /\ In y l.
Proof.
  intros [pre [post ->]]. split; apply in_or_app; right.
  - now left.
  - right. now left.
Qed.

(** A walk that raises stopped at two consecutive cities, with the
    exception their lookup raised. *)
Lemma walk_raise_edge (G : NX.Graph) (a : string) (l : list string) (d : Z)
    (e : exn) :
  walk G a l d = Raise e ->
  exists x y, consecutive (a :: l) x y /\ NX.weight G x y = Raise e.
Proof.
  revert a d. induction l as [|b l IH]; intros a d; cbn [walk]; [discriminate|].
  destruct (NX.weight G a b) as [w|e'] eqn:E; cbn [bindR].
  - intros H. destruct (IH b (d + w) H) as [x [y [Hc Hw]]].
    exists x, y. split; [now apply consecutive_cons | exact Hw].
  - intros [= <-]. exists a, b. split; [now exists [], l | exact E].
Qed.

Lemma route_raise_edge (G : NX.Graph) (a : string) (l : list string)
    (e : exn) :
  TSPSolver.route_distance G (a :: l) = Raise e ->
  exists x y, consecutive ((a :: l) ++ [a]) x y /\ NX.weight G x y = Raise e.
Proof. rewrite route_distance_closed_walk. apply walk_raise_edge. Qed.

Lemma route_measured_edges (G : NX.Graph) (a : string) (l : list string)
    (c : Z) (x y : string) :
  TSPSolver.route_distance G (a :: l) = Ok c ->
  consecutive ((a :: l) ++ [a]) x y ->
  exists w, NX.weight G x y = Ok w.
Proof.
  rewrite route_distance_closed_walk. intros Hrun [pre [post Heq]].
  eapply walk_edges; [exact Hrun | exact Heq].
Qed.

(** The lookup of a neighbour of a node can only miss the neighbour. *)
Lemma weight_raise_node (G : NX.Graph) (x y : string) (e : exn) :
  consistent G -> In x (NX.nodes G) -> NX.weight G x y = Raise e ->
  e = KeyError y.
Proof.
  intros HG Hx. rewrite weight_lookup2 by exact HG.
  apply has_node_In in Hx. rewrite Hx.
  destruct (lookup2 (NX.adj G) x y); [discriminate | now intros [= <-]].
Qed.

(** The exception of a loop that raises is the exception of one of its
    candidates. *)
Lemma scan_raise_inv (G : NX.Graph) (start_city : string)
    (cands : list (list string)) (best : dist * option (list string))
    (e : exn) :
  for_each cands (TSPSolver.consider G start_city) best = Raise e ->
  exists q, In q cands /\
            TSPSolver.route_distance G (start_city :: q) = Raise e.
Proof.
  revert best. induction cands as [|x cands IH]; intros best;
    cbn [for_each]; [discriminate|].
  destruct (TSPSolver.route_distance G (start_city :: x)) as [cx|ex] eqn:Ex.
  - destruct best as [m r]. rewrite (consider_measured G start_city x cx m r Ex).
    destruct (lt_dist cx m); cbn [bindR]; intros H;
      destruct (IH _ H) as [q [Hq He]]; exists q; (split; [now right | exact He]).
  - rewrite (consider_raises G start_city x ex best Ex). cbn [bindR].
    intros [= <-]. exists x. split; [now left | exact Ex].
Qed.

Lemma candidate_nodes (G : NX.Graph) (start_city : string) (q : list string)
    (x : string) :
  In start_city (NX.nodes G) -> In q (candidates G start_city) ->
  In x ((start_city :: q) ++ [start_city]) -> In x (NX.nodes G).
Proof.
  intros Hstart Hq Hx. apply permutations_spec in Hq.
  apply in_app_or in Hx as [[<-|Hx]|[<-|[]]]; try exact Hstart.
  apply (Permutation_in x (Permutation_sym Hq)), others_In in Hx. tauto.
Qed.

(** X1: a call ends in one of three ways.  It returns no route and the
    message that the start city is absent, exactly when the start city is no
    node of the graph; or it raises a [KeyError] whose key is a node of the
    graph; or it returns the start city followed by a permutation of the
    other nodes, with a finite distance.  It never returns the infinite
    distance it starts from and never raises another exception. *)
Theorem solve_outcomes (g : GraphModel) (start_city : string) :
  (~ In start_city (NX.nodes (graph_of g)) /\
   solve g start_city = Ok (None, Message TSPSolver.start_absent)) \/
  (In start_city (NX.nodes (graph_of g)) /\
   exists k, solve g start_city = Raise (KeyError k) /\
             In k (NX.nodes (graph_of g))) \/
  (In start_city (NX.nodes (graph_of g)) /\
   exists best c,
     solve g start_city = Ok (Some (start_city :: best), Distance (Finite c)) /\
     Permutation (TSPSolver.others start_city (NX.nodes (graph_of g))) best).
Proof.
  pose proof (consistent_graph_of g) as HG. set (G := graph_of g) in *.
  rewrite !solve_runs, !has_node_existsb. fold G.
  destruct (NX.has_node start_city G) eqn:E; cbn [negb].
  - right. apply has_node_In in E.
    destruct (search G start_city) as [best|e] eqn:Es; cbn [bindR].
    + right. split; [exact E|].
      destruct (search_returns G start_city (search_measured _ _ _ Es))
        as [b [c [Hb Hfirst]]].
      rewrite Hb in Es. injection Es as <-. cbn [fst snd].
      exists b, c. split; [reflexivity|].
      apply first_cheapest_least in Hfirst as [Hin _].
      now apply permutations_spec.
    + left. split; [exact E|].
      destruct (scan_raise_inv _ _ _ _ _ Es) as [q [Hq He]].
      destruct (route_raise_edge _ _ _ _ He) as [x [y [Hc Hw]]].
      apply consecutive_In in Hc as [Hx Hy].
      apply (candidate_nodes G start_city q _ E Hq) in Hx, Hy.
      rewrite (weight_raise_node G x y e HG Hx Hw).
      now exists y.
  - left. split; [|reflexivity].
    intros Hin. apply has_node_In in Hin. congruence.
Qed.

(** X2: when the start city is a node, the call raises a [KeyError]
    exactly when some candidate cycle, the start city, a permutation of the
    other nodes and the start city again, has two consecutive cities that
    no edge joins. *)
Theorem solve_raises_iff_missing_edge (g : GraphModel) (start_city : string) :
  In start_city (NX.nodes (graph_of g)) ->
  (exists k, solve g start_city = Raise (KeyError k)) <->
  (exists q x y,
     Permutation (TSPSolver.others start_city (NX.nodes (graph_of g))) q /\
     consecutive ((start_city :: q) ++ [start_city]) x y /\
     forall w, NX.weight (graph_of g) x y <> Ok w).
Proof.
  intros Hstart. split.
  - intros [k Hk]. rewrite solve_runs, has_node_existsb in Hk.
    pose proof Hstart as E. apply has_node_In in E. rewrite E in Hk.
    cbn [negb] in Hk.
    destruct (search (graph_of g) start_city) as [best|e] eqn:Es;
      [discriminate|].
    destruct (scan_raise_inv _ _ _ _ _ Es) as [q [Hq He]].
    destruct (route_raise_edge _ _ _ _ He) as [x [y [Hc Hw]]].
    exists q, x, y. split; [now apply permutations_spec | split; [exact Hc|]].
    intros w Hw'. congruence.
  - intros [q [x [y [Hq [[pre [post Hsplit]] Hmissing]]]]].
    apply (missing_edge_raises g start_city q pre post x y);
      [exact Hstart | now apply permutations_spec | exact Hsplit | exact Hmissing].
Qed.

Lemma solve_raises_iff_missing_edge_witness :
  exists k, solve (run [AddEdge "A" "B" 1; AddEdge "A" "C" 1]) "A"
            = Raise (KeyError k).
Proof.
  apply (solve_raises_iff_missing_edge
           (run [AddEdge "A" "B" 1; AddEdge "A" "C" 1]) "A").
  - simpl. tauto.
  - exists ["B"; "C"], "B", "C". split; [reflexivity|]. split.
    + now exists ["A"], ["A"].
    + intros w. discriminate.
Defined.

(** X3: a route that is returned is the first cheapest in the order of
    [permutations]: every candidate before it costs more, no candidate
    after it costs less, so of two routes of the same least cost the earlier
    one is kept. *)
Theorem solve_returns_first_cheapest (g : GraphModel) (start_city : string)
    (route : list string) (result : report) :
  solve g start_city = Ok (Some route, result) ->
  exists earlier best later c,
    route = start_city :: best /\
    result = Distance (Finite c) /\
    c = cycle_cost (graph_of g) start_city route /\
    permutations (TSPSolver.others start_city (NX.nodes (graph_of g)))
    = earlier ++ best :: later /\
    (forall q, In q earlier ->
               c < cycle_cost (graph_of g) start_city (start_city :: q)) /\
    (forall q, In q later ->
               c <= cycle_cost (graph_of g) start_city (start_city :: q)).
Proof.
  intros Hsolve.
  destruct (solve_success g start_city route result Hsolve)
    as [Hstart [best [c [-> [-> Hfirst]]]]].
  assert (Hall : forall q, In q (candidates (graph_of g) start_city) ->
            TSPSolver.route_distance (graph_of g) (start_city :: q)
            = Ok (cycle_cost (graph_of g) start_city (start_city :: q))).
  { intros q Hq. rewrite solve_runs, has_node_existsb in Hsolve.
    apply has_node_In in Hstart. rewrite Hstart in Hsolve. cbn [negb] in Hsolve.
    destruct (search (graph_of g) start_city) as [b|e] eqn:Es; [|discriminate].
    destruct (search_measured _ _ _ Es q Hq) as [c' Hc'].
    now rewrite <- (route_distance_sound _ _ _ _ Hc'). }
  destruct Hfirst as [pre [post [Hsplit [Hc [Hpre Hpost]]]]].
  exists pre, best, post, c. repeat split.
  - now apply route_distance_sound.
  - exact Hsplit.
  - intros q Hq. apply (Hpre q _ Hq). apply Hall.
    unfold candidates in *. rewrite Hsplit. apply in_or_app. now left.
  - intros q Hq. apply (Hpost q _ Hq). apply Hall.
    unfold candidates in *. rewrite Hsplit. apply in_or_app. right. now right.
Qed.

Lemma solve_returns_first_cheapest_witness :
  exists earlier best later c,
    ["A"; "C"; "B"] = "A" :: best /\
    Distance (Finite 45) = Distance (Finite c) /\
    c = cycle_cost (graph_of triangle_ACB) "A" ["A"; "C"; "B"] /\
    permutations (TSPSolver.others "A" (NX.nodes (graph_of triangle_ACB)))
    = earlier ++ best :: later /\
    (forall q, In q earlier ->
               c < cycle_cost (graph_of triangle_ACB) "A" ("A" :: q)) /\
    (forall q, In q later ->
               c <= cycle_cost (graph_of triangle_ACB) "A" ("A" :: q)).
Proof.
  exact (solve_returns_first_cheapest triangle_ACB "A" ["A"; "C"; "B"]
           (Distance (Finite 45)) eq_refl).
Defined.

(* ===================================================================== *)
(** * The graph of [get_graph] is undirected *)
(* ===================================================================== *)

Lemma last_weight_sym (es : list (string * string * Z)) (a b : string) :
  last_weight es a b = last_weight es b a.
Proof.
  induction es as [|e es IH]; [reflexivity|]. cbn [last_weight].
  now rewrite IH, (joins_sym e a b).
Qed.

Lemma graph_lookup2 (g : GraphModel) (a b : string) :
  lookup2 (NX.adj (graph_of g)) a b
  = last_weight (edges_of (adjacency_matrix g)) a b.
Proof.
  unfold graph_of. rewrite build_edges.
  rewrite lookup2_fold by exact consistent_empty.
  now destruct (last_weight _ a b).
Qed.

Lemma graph_edge_nodes (g : GraphModel) (a b : string) (w : Z) :
  lookup2 (NX.adj (graph_of g)) a b = Some w ->
  In a (NX.nodes (graph_of g)) /\ In b (NX.nodes (graph_of g)).
Proof.
  rewrite graph_lookup2. intros H.
  apply last_weight_Some in H as [[[u v] x] [He [Hj _]]].
  apply joins_true in Hj.
  unfold graph_of. rewrite build_edges, !nodes_fold.
  split; right; exists (u, v, x); (split; [exact He|]); cbn [touches];
    destruct Hj as [[-> ->]|[-> ->]]; tauto.
Qed.

Lemma graph_weight_Ok (g : GraphModel) (u v : string) (w : Z) :
  NX.weight (graph_of g) u v = Ok w <->
  lookup2 (NX.adj (graph_of g)) u v = Some w.
Proof.
  rewrite weight_lookup2 by apply consistent_graph_of. split.
  - destruct (NX.has_node u (graph_of g)); [|discriminate].
    destruct (lookup2 _ u v); [now intros [= ->] | discriminate].
  - intros H. destruct (graph_edge_nodes g u v w H) as [Hu _].
    apply has_node_In in Hu. now rewrite Hu, H.
Qed.

Lemma graph_weight_sym (g : GraphModel) (u v : string) (w : Z) :
  NX.weight (graph_of g) u v = Ok w -> NX.weight (graph_of g) v u = Ok w.
Proof.
  rewrite !graph_weight_Ok, !graph_lookup2. now rewrite last_weight_sym.
Qed.

(** X4: whatever [adjacency_matrix] holds, also a state that [add_edge]
    cannot produce with an entry in one direction only, the graph
    [get_graph] builds is undirected: a weight it has between [u] and [v] it
    has between [v] and [u], and both are nodes of the graph. *)
Theorem get_graph_undirected (g : GraphModel) (u v : string) (w : Z) :
  NX.weight (graph_of g) u v = Ok w ->
  NX.weight (graph_of g) v u = Ok w /\
  In u (NX.nodes (graph_of g)) /\ In v (NX.nodes (graph_of g)).
Proof.
  intros H. split; [now apply graph_weight_sym|].
  apply graph_weight_Ok in H. exact (graph_edge_nodes g u v w H).
Qed.

Lemma get_graph_undirected_witness :
  NX.weight (graph_of {| adjacency_matrix := [("A", [("B", 3)])] |}) "B" "A"
  = Ok 3 /\
  In "A" (NX.nodes (graph_of {| adjacency_matrix := [("A", [("B", 3)])] |})) /\
  In "B" (NX.nodes (graph_of {| adjacency_matrix := [("A", [("B", 3)])] |})).
Proof.
  exact (get_graph_undirected
           {| adjacency_matrix := [("A", [("B", 3)])] |} "A" "B" 3 eq_refl).
Defined.

(* ===================================================================== *)
(** * Two cities *)
(* ===================================================================== *)

Lemma others_two (a b : string) :
  a <> b ->
  TSPSolver.others a [a; b] = [b] /\ TSPSolver.others a [b; a] = [b].
Proof.
  intros Hne. unfold TSPSolver.others. cbn [filter].
  rewrite String.eqb_refl. apply not_eq_sym, String.eqb_neq in Hne.
  now rewrite Hne.
Qed.

(** X5: on a graph of two nodes [a] and [b] joined by an edge of weight
    [w], [solve(a)] returns the route [a, b] and the distance [2 * w]: the
    edge is counted there and back. *)
Theorem two_node_tour (g : GraphModel) (a b : string) (w : Z) :
  NX.nodes (graph_of g) = [a; b] \/ NX.nodes (graph_of g) = [b; a] ->
  NX.weight (graph_of g) a b = Ok w ->
  solve g a = Ok (Some [a; b], Distance (Finite (2 * w))).
Proof.
  intros Hnodes Hab.
  pose proof (graph_weight_sym g a b w Hab) as Hba.
  destruct (consistent_graph_of g) as [Hnd _].
  assert (Hne : a <> b).
  { destruct Hnodes as [H|H]; rewrite H in Hnd;
      inversion Hnd as [|? ? Hout _]; subst; intros ->; apply Hout; now left. }
  assert (Hothers : TSPSolver.others a (NX.nodes (graph_of g)) = [b]).
  { destruct (others_two a b Hne) as [H1 H2].
    destruct Hnodes as [H|H]; now rewrite H. }
  assert (Hin : In a (NX.nodes (graph_of g))).
  { destruct Hnodes as [H|H]; rewrite H; simpl; tauto. }
  rewrite solve_runs, has_node_existsb.
  apply has_node_In in Hin. rewrite Hin. cbn [negb].
  unfold search, candidates. rewrite Hothers.
  cbn [permutations length permutations_of_size selections flat_map map
       fst snd app for_each].
  unfold TSPSolver.consider, TSPSolver.route_distance.
  cbn [length Nat.sub seq for_each nth last Nat.add]. rewrite Hab.
  cbn [bindR]. rewrite Hba. cbn [bindR lt_dist fst snd].
  replace (0 + w + w) with (2 * w) by lia. reflexivity.
Qed.

Lemma two_node_tour_witness :
  solve (run [AddEdge "A" "B" 7]) "B"
  = Ok (Some ["B"; "A"], Distance (Finite (2 * 7))).
Proof.
  apply (two_node_tour (run [AddEdge "A" "B" 7]) "B" "A" 7).
  - right. reflexivity.
  - reflexivity.
Defined.

(* ===================================================================== *)
(** * The least cost does not depend on the start city *)
(* ===================================================================== *)

Lemma walk_sum_split (w : string -> string -> Z) (l1 l2 : list string)
    (x : string) :
  walk_sum w (l1 ++ x :: l2) = walk_sum w (l1 ++ [x]) + walk_sum w (x :: l2).
Proof.
  induction l1 as [|a l1 IH]; [reflexivity|].
  destruct l1 as [|b l1].
  - cbn [app]. rewrite walk_sum_cons. simpl. lia.
  - change ((a :: b :: l1) ++ x :: l2) with (a :: b :: (l1 ++ x :: l2)).
    change ((a :: b :: l1) ++ [x]) with (a :: b :: (l1 ++ [x])).
    rewrite !walk_sum_cons.
    change (b :: l1 ++ x :: l2) with ((b :: l1) ++ x :: l2).
    change (b :: l1 ++ [x]) with ((b :: l1) ++ [x]).
    rewrite IH. lia.
Qed.

(** A cycle costs the same read from any of its cities. *)
Lemma cycle_cost_rotate (G : NX.Graph) (s t : string) (q1 q2 : list string) :
  cycle_cost G t (t :: q2 ++ s :: q1) = cycle_cost G s (s :: q1 ++ t :: q2).
Proof.
  unfold cycle_cost.
  replace ((t :: q2 ++ s :: q1) ++ [t]) with ((t :: q2) ++ s :: (q1 ++ [t]))
    by (cbn [app]; now rewrite <- app_assoc).
  replace ((s :: q1 ++ t :: q2) ++ [s]) with ((s :: q1) ++ t :: (q2 ++ [s]))
    by (cbn [app]; now rewrite <- app_assoc).
  rewrite (walk_sum_split _ (t :: q2) (q1 ++ [t]) s).
  rewrite (walk_sum_split _ (s :: q1) (q2 ++ [s]) t).
  cbn [app]. lia.
Qed.

Lemma hamiltonian_rotate (G : NX.Graph) (s t : string) (route : list string) :
  hamiltonian G t route -> In s (NX.nodes G) ->
  exists route', hamiltonian G s route' /\
                 cycle_cost G s route' = cycle_cost G t route.
Proof.
  intros [Hhd [Hnd Hsame]] Hs. destruct route as [|a q]; [discriminate|].
  injection Hhd as ->.
  destruct (string_dec s t) as [->|Hne].
  - exists (t :: q). split; [|reflexivity].
    split; [reflexivity | split; [exact Hnd | exact Hsame]].
  - assert (Hin : In s q).
    { apply Hsame in Hs. destruct Hs as [<-|Hs]; [congruence | exact Hs]. }
    apply in_split in Hin as [q2 [q1 ->]].
    exists (s :: q1 ++ t :: q2). split.
    + assert (Hperm : Permutation (t :: q2 ++ s :: q1) (s :: q1 ++ t :: q2))
        by apply (Permutation_app_comm (t :: q2) (s :: q1)).
      split; [reflexivity | split].
      * eapply Permutation_NoDup; eassumption.
      * intros x. rewrite <- Hsame. split; intros Hx.
        -- eapply Permutation_in; [symmetry|]; eassumption.
        -- eapply Permutation_in; eassumption.
    + symmetry. apply cycle_cost_rotate.
Qed.

(** What the search finds on a complete graph. *)
Lemma optimum (g : GraphModel) (start_city : string) :
  complete (graph_of g) ->
  (2 <= length (NX.nodes (graph_of g)))%nat ->
  In start_city (NX.nodes (graph_of g)) ->
  exists best c,
    solve g start_city = Ok (Some (start_city :: best), Distance (Finite c)) /\
    hamiltonian (graph_of g) start_city (start_city :: best) /\
    c = cycle_cost (graph_of g) start_city (start_city :: best) /\
    forall cycle, hamiltonian (graph_of g) start_city cycle ->
                  c <= cycle_cost (graph_of g) start_city cycle.
Proof.
  intros Hc Hn Hstart. set (G := graph_of g) in *.
  pose proof (consistent_graph_of g) as HG. fold G in HG.
  assert (Hall : forall q, In q (candidates G start_city) ->
            exists c, TSPSolver.route_distance G (start_city :: q) = Ok c)
    by (intros q; now apply candidate_measured).
  destruct (search_returns G start_city Hall) as [best [c [Hrun Hfirst]]].
  pose proof Hfirst as [pre [post [_ [Hcost _]]]].
  apply first_cheapest_least in Hfirst as [Hbest Hleast].
  destruct HG as [Hnd _].
  exists best, c. split; [|split; [|split]].
  - rewrite solve_runs, has_node_existsb. fold G.
    apply has_node_In in Hstart. rewrite Hstart. cbn [negb].
    now rewrite Hrun.
  - apply (candidate_hamiltonian G start_city Hnd Hstart best Hbest).
  - now apply route_distance_sound.
  - intros cycle Hcyc.
    destruct (hamiltonian_candidate G start_city Hnd Hstart cycle Hcyc)
      as [q [-> Hq]].
    destruct (Hall q Hq) as [c' Hc'].
    rewrite <- (route_distance_sound G start_city q c' Hc').
    exact (Hleast q c' Hq Hc').
Qed.

(** X6: on a complete graph with at least two nodes the distance
    returned is the same for every start city of the graph; only the route
    is written from another city. *)
Theorem least_cost_independent_of_start (g : GraphModel) (s t : string) :
  complete (graph_of g) ->
  (2 <= length (NX.nodes (graph_of g)))%nat ->
  In s (NX.nodes (graph_of g)) ->
  In t (NX.nodes (graph_of g)) ->
  exists route_s route_t c,
    solve g s = Ok (Some route_s, Distance (Finite c)) /\
    solve g t = Ok (Some route_t, Distance (Finite c)).
Proof.
  intros Hc Hn Hs Ht.
  destruct (optimum g s Hc Hn Hs) as [bs [cs [Hsolve_s [Hham_s [Hcs Hleast_s]]]]].
  destruct (optimum g t Hc Hn Ht) as [bt [ct [Hsolve_t [Hham_t [Hct Hleast_t]]]]].
  destruct (hamiltonian_rotate _ s t _ Hham_t Hs) as [rs [Hrs Hcost_s]].
  destruct (hamiltonian_rotate _ t s _ Hham_s Ht) as [rt [Hrt Hcost_t]].
  pose proof (Hleast_s rs Hrs). pose proof (Hleast_t rt Hrt).
  assert (E : ct = cs) by lia. rewrite E in Hsolve_t.
  exists (s :: bs), (t :: bt), cs. split; assumption.
Qed.

Lemma least_cost_independent_of_start_witness :
  exists route_s route_t c,
    solve triangle_ABC "A" = Ok (Some route_s, Distance (Finite c)) /\
    solve triangle_ABC "C" = Ok (Some route_t, Distance (Finite c)).
Proof.
  apply (least_cost_independent_of_start triangle_ABC "A" "C").
  - exact complete_triangle.
  - simpl. lia.
  - simpl. tauto.
  - simpl. tauto.
Defined.

(* ===================================================================== *)
(** * The adjacency structure after calls of [add_edge] and [reset] *)
(* ===================================================================== *)

(** X7: after any calls of [add_edge] and [reset], [get_graph] builds
    the graph that [adjacency_matrix] records: its nodes are the keys, none
    twice, and it has the weight [w] between [u] and [v] exactly when the
    entry (u,v) is [w]. *)
Theorem get_graph_mirrors_adjacency (actions : list action) :
  NoDup (NX.nodes (graph_of (run actions))) /\
  (forall x, In x (NX.nodes (graph_of (run actions)))
             <-> is_node (run actions) x = true) /\
  (forall u v w, NX.weight (graph_of (run actions)) u v = Ok w
                 <-> entry (run actions) u v = Some w).
Proof.
  split; [apply consistent_graph_of | split].
  - apply nodes_run.
  - intros u v w. rewrite graph_weight_Ok.
    now rewrite graph_entry by (apply well_formed_run || apply symmetric_run).
Qed.

(** X8: after any calls of [add_edge] and [reset], a city is a key of
    [adjacency_matrix] exactly when it is an endpoint of a recorded edge: no
    key is left with an empty row. *)
Theorem node_iff_endpoint (actions : list action) (u : string) :
  is_node (run actions) u = true <->
  exists v w, entry (run actions) u v = Some w.
Proof.
  split.
  - apply populated_run_from. discriminate.
  - intros [v [w H]]. eapply lookup2_mem, H.
Qed.

Lemma set_set (V : Type) (d : dict V) (k : string) (v1 v2 : V) :
  set k v2 (set k v1 d) = set k v2 d.
Proof.
  induction d as [|[k' v'] d IH]; cbn [set].
  - now rewrite String.eqb_refl.
  - destruct (String.eqb k' k) eqn:E; cbn [set]; rewrite E; [reflexivity|].
    now rewrite IH.
Qed.

Lemma set_comm (V : Type) (d : dict V) (k1 k2 : string) (a b : V) :
  k1 <> k2 -> mem k1 d = true ->
  set k1 a (set k2 b d) = set k2 b (set k1 a d).
Proof.
  intros Hne. unfold mem. induction d as [|[k v] d IH]; cbn [get set];
    [discriminate|].
  destruct (String.eqb_spec k k1) as [->|Hk1].
  - intros _. apply String.eqb_neq in Hne. rewrite Hne. cbn [set].
    now rewrite String.eqb_refl, Hne.
  - intros Hmem. apply String.eqb_neq in Hk1.
    destruct (String.eqb k k2) eqn:Hk2; cbn [set]; rewrite Hk1, Hk2;
      [reflexivity|].
    now rewrite IH.
Qed.

Lemma row_of_set (m : dict (dict Z)) (k k' : string) (r : dict Z) :
  row_of k' (set k r m) = if String.eqb k k' then r else row_of k' m.
Proof. unfold row_of. rewrite get_set. now destruct (String.eqb k k'). Qed.

Lemma with_entry_overwrite (a b : string) (x y : Z) (m : dict (dict Z)) :
  with_entry a b x (with_entry a b y m) = with_entry a b x m.
Proof.
  unfold with_entry. rewrite row_of_set, String.eqb_refl.
  now rewrite !set_set.
Qed.

Lemma with_entry_comm (a b c d : string) (x y : Z) (m : dict (dict Z)) :
  a <> c -> mem a m = true ->
  with_entry a b x (with_entry c d y m) = with_entry c d y (with_entry a b x m).
Proof.
  intros Hne Hmem. unfold with_entry. rewrite !row_of_set.
  pose proof Hne as Hac. apply String.eqb_neq in Hac.
  apply not_eq_sym, String.eqb_neq in Hne. rewrite Hac, Hne.
  apply set_comm; [now apply String.eqb_neq | exact Hmem].
Qed.

Lemma mem_with_edge (u v x : string) (w : Z) (m : dict (dict Z)) :
  mem x (with_edge u v w m) = String.eqb u x || String.eqb v x || mem x m.
Proof.
  unfold with_edge. rewrite !mem_with_entry, !mem_with_row.
  destruct (String.eqb u x), (String.eqb v x), (mem x m); reflexivity.
Qed.

Lemma with_edge_on_rows (u v : string) (w : Z) (m : dict (dict Z)) :
  mem u m = true -> mem v m = true ->
  with_edge u v w m = with_entry v u w (with_entry u v w m).
Proof.
  intros Hu Hv. unfold with_edge.
  now rewrite (with_row_present u m Hu), (with_row_present v m Hv).
Qed.

Lemma with_edge_overwrite (u v : string) (w1 w2 : Z) (m : dict (dict Z)) :
  with_edge u v w2 (with_edge u v w1 m) = with_edge u v w2 m /\
  with_edge v u w2 (with_edge u v w1 m) = with_edge u v w2 m.
Proof.
  assert (Hu : mem u (with_edge u v w1 m) = true)
    by (rewrite mem_with_edge, String.eqb_refl; reflexivity).
  assert (Hv : mem v (with_edge u v w1 m) = true)
    by (rewrite mem_with_edge, String.eqb_refl; apply orb_true_iff; left;
        apply orb_true_r).
  rewrite (with_edge_on_rows u v w2 _ Hu Hv).
  rewrite (with_edge_on_rows v u w2 _ Hv Hu).
  unfold with_edge. set (R := with_row v (with_row u m)).
  assert (HuR : mem u R = true).
  { unfold R. rewrite !mem_with_row, String.eqb_refl. apply orb_true_r. }
  assert (HvR : mem v R = true).
  { unfold R. rewrite !mem_with_row, String.eqb_refl. reflexivity. }
  destruct (string_dec u v) as [->|Hne].
  - now rewrite !with_entry_overwrite.
  - assert (Hvu : v <> u) by now apply not_eq_sym.
    split.
    + rewrite (with_entry_comm u v v u w2 w1 (with_entry u v w1 R) Hne)
        by (rewrite mem_with_entry, String.eqb_refl; reflexivity).
      now rewrite !with_entry_overwrite.
    + rewrite with_entry_overwrite.
      rewrite (with_entry_comm v u u v w2 w1 R Hvu HvR).
      rewrite with_entry_overwrite.
      apply (with_entry_comm u v v u w2 w2 R Hne HuR).
Qed.

(** X9: the last write wins, whole state included.  An [add_edge(u, v,
    w2)], or an [add_edge(v, u, w2)], made right after an [add_edge(u, v,
    w1)] leaves exactly the state that [add_edge(u, v, w2)] alone would
    have left: the first weight is gone from both directions and no key
    changes its place. *)
Theorem add_edge_last_write_wins (g : GraphModel) (u v : string) (w1 w2 : Z) :
  state_after (GraphModel.add_edge u v w2)
    (state_after (GraphModel.add_edge u v w1) g)
  = state_after (GraphModel.add_edge u v w2) g /\
  state_after (GraphModel.add_edge v u w2)
    (state_after (GraphModel.add_edge u v w1) g)
  = state_after (GraphModel.add_edge u v w2) g.
Proof.
  rewrite !state_after_add_edge. cbn [adjacency_matrix].
  destruct (with_edge_overwrite u v w1 w2 (adjacency_matrix g)) as [-> ->].
  now split.
Qed.

Lemma joins_both (e1 e2 : string * string * Z) (a b : string) :
  joins e1 a b = true -> joins e2 a b = true ->
  joins e1 (fst (fst e2)) (snd (fst e2)) = true.
Proof.
  destruct e1 as [[u1 v1] w1], e2 as [[u2 v2] w2]. cbn [fst snd].
  rewrite !joins_true. intuition (subst; tauto).
Qed.

(** X10: two insertions that do not concern the same pair of cities can
    be made in either order: the node set and every entry come out the same.
    (The order of the dictionaries may differ.) *)
Theorem add_edge_order_irrelevant (g : GraphModel)
    (u1 v1 u2 v2 : string) (w1 w2 : Z) :
  ~ ((u1 = u2 /\ v1 = v2) \/ (u1 = v2 /\ v1 = u2)) ->
  same_content
    (state_after (GraphModel.add_edge u2 v2 w2)
       (state_after (GraphModel.add_edge u1 v1 w1) g))
    (state_after (GraphModel.add_edge u1 v1 w1)
       (state_after (GraphModel.add_edge u2 v2 w2) g)).
Proof.
  intros Hne. split.
  - intros x. rewrite !is_node_add_edge.
    destruct (String.eqb u1 x), (String.eqb v1 x), (String.eqb u2 x),
      (String.eqb v2 x); reflexivity.
  - intros a b. rewrite !entry_add_edge.
    destruct (joins (u1, v1, w1) a b) eqn:E1,
      (joins (u2, v2, w2) a b) eqn:E2; try reflexivity.
    exfalso. apply Hne.
    pose proof (joins_both _ _ a b E1 E2) as H. cbn [fst snd] in H.
    apply joins_true in H. intuition congruence.
Qed.

Lemma add_edge_order_irrelevant_witness :
  same_content
    (state_after (GraphModel.add_edge "B" "C" 15)
       (state_after (GraphModel.add_edge "A" "B" 10) GraphModel.__init__))
    (state_after (GraphModel.add_edge "A" "B" 10)
       (state_after (GraphModel.add_edge "B" "C" 15) GraphModel.__init__)).
Proof.
  apply (add_edge_order_irrelevant GraphModel.__init__ "A" "B" "B" "C" 10 15).
  intros [[H _]|[H _]]; discriminate H.
Defined.

(* ===================================================================== *)
(** * The window: what a click does *)
(* ===================================================================== *)

(** X11: what a click on the add button does.  A distance that [int]
    cannot read, two equal cities, a negative distance: each leaves the
    graph as it was and puts the text of the [ValueError] in the output box,
    the equal cities being checked before the sign of the distance.
    Otherwise the edge is inserted, and stays inserted however the rest of
    the [try] block ends: when the listing is written and the drawing
    returns, the output box holds the listing, one line for each key of
    [adjacency_matrix]; a [ValueError] of the listing or of the drawing is
    caught and its text replaces the listing; another exception of the
    drawing escapes the handler and leaves the listing in the box. *)
Theorem add_click (int : string -> res Z) (str : Z -> res string)
    (update_graph : GraphModel -> res unit)
    (city1 city2 distance : string) (w : Window) :
  let call := Window.add_edge int str update_graph city1 city2 distance in
  (forall msg, int distance = Raise (ValueError msg) ->
     call w = (Ok tt, {| graph_model := graph_model w; text_output := msg |})) /\
  (forall d, int distance = Ok d -> city1 = city2 ->
     call w = (Ok tt, {| graph_model := graph_model w;
                         text_output := Application.same_cities |})) /\
  (forall d, int distance = Ok d -> city1 <> city2 -> d < 0 ->
     call w = (Ok tt, {| graph_model := graph_model w;
                         text_output := Application.negative_distance |})) /\
  (forall d, int distance = Ok d -> city1 <> city2 -> 0 <= d ->
     let g' := state_after (GraphModel.add_edge city1 city2 d) (graph_model w) in
     graph_model (state_after call w) = g' /\
     (forall text, listing str (adjacency_matrix g') = Ok text ->
        (update_graph g' = Ok tt ->
         call w = (Ok tt, {| graph_model := g'; text_output := text |})) /\
        (forall msg, update_graph g' = Raise (ValueError msg) ->
         call w = (Ok tt, {| graph_model := g'; text_output := msg |})) /\
        (forall k, update_graph g' = Raise (KeyError k) ->
         call w = (Raise (KeyError k),
                   {| graph_model := g'; text_output := text |}))) /\
     (forall msg, listing str (adjacency_matrix g') = Raise (ValueError msg) ->
        call w = (Ok tt, {| graph_model := g'; text_output := msg |}))).
Proof.
  cbv zeta. split; [|split; [|split]].
  - intros msg Hint. now apply add_click_unreadable.
  - intros d Hint Heq. now apply (add_click_same_cities _ _ _ _ _ _ _ d).
  - intros d Hint Hne Hneg. now apply (add_click_negative _ _ _ _ _ _ _ d).
  - intros d Hint Hne Hpos. split; [|split].
    + now apply add_click_inserted.
    + intros text Htext.
      rewrite (add_click_inserts _ _ _ _ _ _ _ d Hint Hne Hpos).
      unfold try_except_ValueError, bind.
      rewrite (update_output_returns str _ text) by exact Htext.
      unfold Window.draw. cbn [graph_model text_output].
      split; [|split].
      * now intros ->.
      * now intros msg ->.
      * now intros k ->.
    + intros msg Hmsg.
      rewrite (add_click_inserts _ _ _ _ _ _ _ d Hint Hne Hpos).
      unfold try_except_ValueError, bind.
      destruct (update_output_raises str
                  {| graph_model :=
                       state_after (GraphModel.add_edge city1 city2 d)
                         (graph_model w);
                     text_output := text_output w |} _ Hmsg) as [t' ->].
      reflexivity.
Qed.

Lemma add_click_witness :
  Window.add_edge (fun _ => Raise (ValueError "invalid literal"))
    (fun n => Ok (decimal n)) (fun _ => Ok tt) "A" "B" "x" Window.__init__
  = (Ok tt, {| graph_model := GraphModel.__init__;
               text_output := "invalid literal" |}) /\
  Window.add_edge (fun _ => Ok 7) (fun n => Ok (decimal n)) (fun _ => Ok tt)
    "A" "B" "7" Window.__init__
  = (Ok tt,
     {| graph_model := run [AddEdge "A" "B" 7];
        text_output := ("A: B = 7" ++ newline ++ "B: A = 7" ++ newline)%string |}) /\
  Window.add_edge (fun _ => Ok 7) (fun n => Ok (decimal n))
    (fun _ => Raise (ValueError "drawing failed")) "A" "B" "7" Window.__init__
  = (Ok tt,
     {| graph_model := run [AddEdge "A" "B" 7];
        text_output := "drawing failed" |}) /\
  Window.add_edge (fun _ => Ok 7) (fun _ => Raise (ValueError "too many digits"))
    (fun _ => Ok tt) "A" "B" "7" Window.__init__
  = (Ok tt,
     {| graph_model := run [AddEdge "A" "B" 7];
        text_output := "too many digits" |}).
Proof.
  split; [|split; [|split]].
  - exact (proj1 (add_click (fun _ => Raise (ValueError "invalid literal"))
                    (fun n => Ok (decimal n)) (fun _ => Ok tt)
                    "A" "B" "x" Window.__init__) _ eq_refl).
  - destruct (add_click (fun _ => Ok 7) (fun n => Ok (decimal n))
                (fun _ => Ok tt) "A" "B" "7" Window.__init__)
      as (_ & _ & _ & H).
    destruct (H 7 eq_refl ltac:(discriminate) ltac:(discriminate))
      as (_ & Hlisted & _).
    exact (proj1 (Hlisted _ eq_refl) eq_refl).
  - destruct (add_click (fun _ => Ok 7) (fun n => Ok (decimal n))
                (fun _ => Raise (ValueError "drawing failed"))
                "A" "B" "7" Window.__init__)
      as (_ & _ & _ & H).
    destruct (H 7 eq_refl ltac:(discriminate) ltac:(discriminate))
      as (_ & Hlisted & _).
    exact (proj1 (proj2 (Hlisted _ eq_refl)) _ eq_refl).
  - destruct (add_click (fun _ => Ok 7)
                (fun _ => Raise (ValueError "too many digits"))
                (fun _ => Ok tt) "A" "B" "7" Window.__init__)
      as (_ & _ & _ & H).
    destruct (H 7 eq_refl ltac:(discriminate) ltac:(discriminate))
      as (_ & _ & Hraised).
    exact (Hraised _ eq_refl).
Defined.

Lemma calculate_click_runs (str : Z -> res string) (start_city : string)
    (w : Window) :
  Window.calculate_tsp_route str start_city w
  = match solve (graph_model w) start_city with
    | Ok (best_route, result) =>
        if Window.truthy best_route
        then match Window.route_text str best_route result with
             | Ok text =>
                 (Ok tt, {| graph_model := graph_model w;
                            text_output := text |})
             | Raise e =>
                 (Raise e, {| graph_model := graph_model w;
                              text_output := "" |})
             end
        else (Ok tt, {| graph_model := graph_model w;
                        text_output := Window.as_text result |})
    | Raise e => (Raise e, w)
    end.
Proof.
  unfold Window.calculate_tsp_route, bind, Window.on_model.
  rewrite calculate_tsp_route_runs, <- solve_runs.
  destruct (solve (graph_model w) start_city) as [[best_route result]|e].
  - destruct (Window.truthy best_route); [|reflexivity].
    unfold Window.delete_all, lift. cbn [graph_model text_output].
    now destruct (Window.route_text str best_route result).
  - now destruct w.
Qed.

(** X12: a click on the calculate button when some candidate cycle has
    two consecutive cities that no edge joins: the [KeyError] escapes the
    handler, and the window is left exactly as it was, the output box still
    showing what it showed before the click. *)
Theorem calculate_click_missing_edge (str : Z -> res string) (w : Window)
    (start_city : string) (q : list string) (x y : string) :
  In start_city (NX.nodes (graph_of (graph_model w))) ->
  Permutation
    (TSPSolver.others start_city (NX.nodes (graph_of (graph_model w)))) q ->
  consecutive ((start_city :: q) ++ [start_city]) x y ->
  (forall d, NX.weight (graph_of (graph_model w)) x y <> Ok d) ->
  state_after (Window.calculate_tsp_route str start_city) w = w /\
  exists k, outcome (Window.calculate_tsp_route str start_city) w
            = Raise (KeyError k).
Proof.
  intros Hstart Hq [pre [post Hsplit]] Hmissing.
  destruct (missing_edge_raises (graph_model w) start_city q pre post x y
              Hstart (proj2 (permutations_spec _ _) Hq) Hsplit Hmissing)
    as [k Hk].
  unfold state_after, outcome. rewrite calculate_click_runs, Hk.
  split; [reflexivity | now exists k].
Qed.

Lemma calculate_click_missing_edge_witness :
  state_after (Window.calculate_tsp_route (fun n => Ok (decimal n)) "A")
    {| graph_model := run [AddEdge "A" "B" 1; AddEdge "A" "C" 1];
       text_output := "earlier text" |}
  = {| graph_model := run [AddEdge "A" "B" 1; AddEdge "A" "C" 1];
       text_output := "earlier text" |} /\
  exists k,
    outcome (Window.calculate_tsp_route (fun n => Ok (decimal n)) "A")
      {| graph_model := run [AddEdge "A" "B" 1; AddEdge "A" "C" 1];
         text_output := "earlier text" |}
    = Raise (KeyError k).
Proof.
  apply (calculate_click_missing_edge (fun n => Ok (decimal n))
           {| graph_model := run [AddEdge "A" "B" 1; AddEdge "A" "C" 1];
              text_output := "earlier text" |} "A" ["B"; "C"] "B" "C").
  - simpl. tauto.
  - reflexivity.
  - now exists ["A"], ["A"].
  - intros d. discriminate.
Defined.



(* ===================================================================== *)
(** * What the window keeps true of the graph *)
(* ===================================================================== *)

Lemma run_snoc (actions : list action) (a : action) :
  run (actions ++ [a]) = state_after (perform a) (run actions).
Proof. unfold run. now rewrite run_from_app. Qed.

(** A click leaves the graph as it was, or inserts an edge that passed
    the checks, or empties the graph. *)
Lemma click_graph (int : string -> res Z) (str : Z -> res string)
    (update_graph : GraphModel -> res unit) (c : click) (w : Window) :
  graph_model (state_after (handle int str update_graph c) w) = graph_model w \/
  exists a, checked a /\
            graph_model (state_after (handle int str update_graph c) w)
            = state_after (perform a) (graph_model w).
Proof.
  destruct c as [city1 city2 distance|start_city|]; cbn [handle].
  - destruct (int distance) as [d|[k|msg]] eqn:Hint.
    + destruct (string_dec city1 city2) as [Heq|Hne].
      { left. unfold state_after.
        now rewrite (add_click_same_cities _ _ _ _ _ _ _ d Hint Heq). }
      destruct (Z.lt_ge_cases d 0) as [Hneg|Hpos].
      { left. unfold state_after.
        now rewrite (add_click_negative _ _ _ _ _ _ _ d Hint Hne Hneg). }
      right. exists (AddEdge city1 city2 d). split; [now split|].
      now apply add_click_inserted.
    + left. unfold state_after.
      now rewrite (add_click_other_exception _ _ _ _ _ _ _ k Hint).
    + left. unfold state_after.
      now rewrite (add_click_unreadable _ _ _ _ _ _ _ msg Hint).
  - left. unfold state_after. rewrite calculate_click_runs.
    destruct (solve (graph_model w) start_city) as [[best result]|e];
      [|reflexivity].
    destruct (Window.truthy best); [|reflexivity].
    now destruct (Window.route_text str best result).
  - right. exists Reset. now split.
Qed.

(** The graph of a window is one that checked insertions and resets
    build. *)
Lemma session_graph (int : string -> res Z) (str : Z -> res string)
    (update_graph : GraphModel -> res unit) (clicks : list click) :
  exists actions,
    Forall checked actions /\
    graph_model (session int str update_graph clicks) = run actions.
Proof.
  unfold session.
  assert (H : exists actions, Forall checked actions /\
                graph_model Window.__init__ = run actions)
    by (exists []; now split).
  revert H. generalize Window.__init__.
  induction clicks as [|c clicks IH]; intros w H; [exact H|].
  cbn [session_from fold_left]. apply IH.
  destruct H as [actions [Hchecked Hrun]].
  destruct (click_graph int str update_graph c w) as [->|[a [Ha ->]]].
  - now exists actions.
  - exists (actions ++ [a]). split.
    + apply Forall_app. split; [exact Hchecked | now constructor].
    + now rewrite run_snoc, Hrun.
Qed.

Lemma sound_edges_run_from (actions : list action) (g : GraphModel) :
  Forall checked actions -> sound_edges g ->
  sound_edges (run_from g actions).
Proof.
  revert g. induction actions as [|a actions IH]; intros g Hall Hg;
    [exact Hg|].
  inversion Hall as [|? ? Ha Hall']; subst.
  cbn [run_from fold_left]. apply IH; [exact Hall'|].
  destruct a as [c1 c2 d|]; cbn [perform checked] in *.
  - intros u v w. rewrite entry_add_edge.
    destruct (joins (c1, c2, d) u v) eqn:Ej.
    + intros [= <-]. apply joins_true in Ej.
      destruct Ha as [Hne Hpos]. split; [|exact Hpos].
      destruct Ej as [[-> ->]|[-> ->]]; [exact Hne | now apply not_eq_sym].
    + apply Hg.
  - intros u v w. discriminate.
Qed.

Lemma sound_edges_run (actions : list action) :
  Forall checked actions -> sound_edges (run actions).
Proof.
  intros Hall. apply sound_edges_run_from; [exact Hall|].
  intros u v w. discriminate.
Qed.

(** X14: whatever is clicked, in whatever order and with whatever the
    entries hold, the graph of the window is symmetric, joins no city to
    itself, holds no negative distance, and gives every node a neighbour
    other than itself. *)
Theorem window_graph_sound (int : string -> res Z) (str : Z -> res string)
    (update_graph : GraphModel -> res unit) (clicks : list click) :
  let g := graph_model (session int str update_graph clicks) in
  symmetric g /\
  (forall u v w, entry g u v = Some w -> u <> v /\ 0 <= w) /\
  (forall u, is_node g u = true ->
             exists v w, v <> u /\ entry g u v = Some w).
Proof.
  cbv zeta.
  destruct (session_graph int str update_graph clicks) as [actions [Hall ->]].
  pose proof (sound_edges_run actions Hall) as Hsound.
  split; [apply symmetric_run | split; [exact Hsound|]].
  intros u Hu.
  destruct (populated_run_from actions GraphModel.__init__
              ltac:(discriminate) u Hu) as [v [w Hv]].
  exists v, w. split; [|exact Hv].
  apply not_eq_sym. exact (proj1 (Hsound u v w Hv)).
Qed.

Lemma walk_sum_nonneg (f : string -> string -> Z) (l : list string) :
  (forall x y, 0 <= f x y) -> 0 <= walk_sum f l.
Proof.
  intros Hf. induction l as [|a l IH]; [reflexivity|].
  destruct l as [|b l]; [reflexivity|].
  rewrite walk_sum_cons. specialize (Hf a b). lia.
Qed.

(** X15: in the window a route is never shorter than two cities and a
    distance is never negative: when a call on the window's graph returns a
    route, the route has at least two entries and comes with a finite
    distance that is not below zero. *)
Theorem window_solve_sound (int : string -> res Z) (str : Z -> res string)
    (update_graph : GraphModel -> res unit) (clicks : list click)
    (start_city : string) (route : list string) (result : report) :
  solve (graph_model (session int str update_graph clicks)) start_city
  = Ok (Some route, result) ->
  (2 <= length route)%nat /\
  exists c, result = Distance (Finite c) /\ 0 <= c.
Proof.
  destruct (session_graph int str update_graph clicks) as [actions [Hall ->]].
  pose proof (sound_edges_run actions Hall) as Hsound.
  intros Hsolve.
  destruct (solve_success _ _ _ _ Hsolve)
    as [Hstart [best [c [-> [-> Hfirst]]]]].
  pose proof Hfirst as [_ [_ [_ [Hcost _]]]].
  apply first_cheapest_least in Hfirst as [Hbest _].
  destruct (consistent_graph_of (run actions)) as [Hnd _].
  pose proof (candidate_route _ _ Hnd Hstart best Hbest) as Hperm.
  split.
  - pose proof Hstart as Hnode. apply nodes_run in Hnode.
    destruct (populated_run_from actions GraphModel.__init__
                ltac:(discriminate) start_city Hnode) as [v [w Hv]].
    destruct (Hsound _ _ _ Hv) as [Hne _].
    assert (Hvnode : In v (NX.nodes (graph_of (run actions)))).
    { apply nodes_run. eapply lookup2_mem. apply symmetric_run, Hv. }
    apply (Permutation_in v Hperm) in Hvnode.
    destruct Hvnode as [Heq|Hin]; [congruence|].
    destruct best; [destruct Hin | simpl; lia].
  - exists c. split; [reflexivity|].
    rewrite (route_distance_sound _ _ _ _ Hcost). unfold cycle_cost.
    apply walk_sum_nonneg. intros x y. unfold weight_of.
    destruct (NX.weight (graph_of (run actions)) x y) as [d|e] eqn:E;
      [|reflexivity].
    apply graph_weight_Ok in E.
    rewrite graph_entry in E by (apply well_formed_run || apply symmetric_run).
    exact (proj2 (Hsound x y d E)).
Qed.

Lemma window_solve_sound_witness :
  (2 <= length ["A"; "B"])%nat /\
  exists c, Distance (Finite 14) = Distance (Finite c) /\ 0 <= c.
Proof.
  exact (window_solve_sound (fun _ => Ok 7) (fun n => Ok (decimal n))
           (fun _ => Raise (ValueError "drawing failed"))
           [ClickAdd "A" "B" "7"] "A"
           ["A"; "B"] (Distance (Finite 14)) eq_refl).
Defined.

Lemma session_from_app (int : string -> res Z) (str : Z -> res string)
    (update_graph : GraphModel -> res unit) (w : Window)
    (l1 l2 : list click) :
  session_from int str update_graph w (l1 ++ l2)
  = session_from int str update_graph
      (session_from int str update_graph w l1) l2.
Proof. apply fold_left_app. Qed.

(** X16: a click on the reset button forgets everything: whatever was
    clicked before it, the graph is empty and the output box is empty, so
    the clicks that follow do what they would do in a window just opened. *)
Theorem reset_click_forgets (int : string -> res Z) (str : Z -> res string)
    (update_graph : GraphModel -> res unit)
    (before after : list click) :
  session int str update_graph (before ++ [ClickReset]) = Window.__init__ /\
  session int str update_graph (before ++ ClickReset :: after)
  = session int str update_graph after.
Proof.
  unfold session. rewrite !session_from_app. split; reflexivity.
Qed.

(* ===================================================================== *)
(** * How many routes are measured *)
(* ===================================================================== *)

Section Counting.
Context {A : Type}.

Lemma selections_length (l : list A) : length (selections l) = length l.
Proof.
  induction l as [|x l IH]; [reflexivity|].
  cbn [selections length]. now rewrite length_map, IH.
Qed.

Lemma selections_rest_length (l : list A) (p : A * list A) :
  In p (selections l) -> S (length (snd p)) = length l.
Proof.
  intros Hp. apply selections_perm, Permutation_length in Hp.
  now rewrite Hp.
Qed.

Lemma flat_map_length_const {B C : Type} (f : B -> list C) (l : list B)
    (n : nat) :
  (forall x, In x l -> length (f x) = n) ->
  length (flat_map f l) = (length l * n)%nat.
Proof.
  induction l as [|x l IH]; intros Hf; [reflexivity|].
  cbn [flat_map length]. rewrite length_app, Hf by now left.
  rewrite IH by (intros y Hy; apply Hf; now right). lia.
Qed.

Lemma permutations_of_size_length (n : nat) (l : list A) :
  length l = n -> length (permutations_of_size n l) = fact n.
Proof.
  revert l. induction n as [|n IH]; intros l Hlen; [reflexivity|].
  cbn [permutations_of_size].
  rewrite (flat_map_length_const _ _ (fact n)).
  - rewrite selections_length, Hlen. reflexivity.
  - intros p Hp. rewrite length_map. apply IH.
    apply selections_rest_length in Hp. lia.
Qed.

End Counting.

(** X17: with [n] nodes and a start city among them, the loop goes
    through exactly (n-1)! routes; and when the call returns a route, every
    one of them was measured. *)
Theorem routes_measured (g : GraphModel) (start_city : string) :
  In start_city (NX.nodes (graph_of g)) ->
  length (permutations
            (TSPSolver.others start_city (NX.nodes (graph_of g))))
  = fact (length (NX.nodes (graph_of g)) - 1) /\
  (forall route result,
     solve g start_city = Ok (Some route, result) ->
     forall q,
       In q (permutations
               (TSPSolver.others start_city (NX.nodes (graph_of g)))) ->
       exists c, TSPSolver.route_distance (graph_of g) (start_city :: q) = Ok c).
Proof.
  intros Hstart. destruct (consistent_graph_of g) as [Hnd _]. split.
  - unfold permutations. rewrite permutations_of_size_length by reflexivity.
    rewrite (others_length start_city _ Hnd Hstart). f_equal. lia.
  - intros route result Hsolve q Hq.
    rewrite solve_runs, has_node_existsb in Hsolve.
    apply has_node_In in Hstart. rewrite Hstart in Hsolve.
    cbn [negb] in Hsolve.
    destruct (search (graph_of g) start_city) as [b|e] eqn:Es; [|discriminate].
    exact (search_measured _ _ _ Es q Hq).
Qed.

Lemma routes_measured_witness :
  length (permutations
            (TSPSolver.others "A" (NX.nodes (graph_of triangle_ABC))))
  = fact (length (NX.nodes (graph_of triangle_ABC)) - 1).
Proof.
  refine (proj1 (routes_measured triangle_ABC "A" _)). simpl. tauto.
Defined.

(* ===================================================================== *)
(** * A route and the same route backwards *)
(* ===================================================================== *)

Lemma consecutive_rev (l : list string) (x y : string) :
  consecutive (rev l) x y -> consecutive l y x.
Proof.
  intros [pre [post H]]. exists (rev post), (rev pre).
  rewrite <- (rev_involutive l), H, rev_app_distr. cbn [rev].
  now rewrite <- !app_assoc.
Qed.

Lemma walk_total_edges (G : NX.Graph) (a : string) (l : list string) (d : Z) :
  (forall x y, consecutive (a :: l) x y -> exists w, NX.weight G x y = Ok w) ->
  exists c, walk G a l d = Ok c.
Proof.
  revert a d. induction l as [|b l IH]; intros a d Hall; cbn [walk].
  - now eexists.
  - destruct (Hall a b) as [w ->]; [now exists [], l|]. cbn [bindR].
    apply IH. intros x y Hc. apply Hall. now apply consecutive_cons.
Qed.

Lemma weight_of_sym (g : GraphModel) (x y : string) :
  weight_of (graph_of g) x y = weight_of (graph_of g) y x.
Proof.
  unfold weight_of.
  destruct (NX.weight (graph_of g) x y) as [w|e] eqn:Exy.
  - now rewrite (graph_weight_sym g x y w Exy).
  - destruct (NX.weight (graph_of g) y x) as [w|e'] eqn:Eyx; [|reflexivity].
    apply graph_weight_sym in Eyx. congruence.
Qed.

Lemma walk_sum_rev (f : string -> string -> Z) (l : list string) :
  (forall x y, f x y = f y x) -> walk_sum f (rev l) = walk_sum f l.
Proof.
  intros Hf. induction l as [|a l IH]; [reflexivity|].
  destruct l as [|b l]; [reflexivity|].
  rewrite walk_sum_cons, <- IH.
  change (rev (a :: b :: l)) with ((rev l ++ [b]) ++ [a]).
  rewrite <- app_assoc. cbn [app].
  rewrite (walk_sum_split f (rev l) [a] b).
  change (rev (b :: l)) with (rev l ++ [b]).
  rewrite walk_sum_cons, (Hf b a). simpl. lia.
Qed.

Lemma closed_rev (s : string) (q : list string) :
  (s :: rev q) ++ [s] = rev ((s :: q) ++ [s]).
Proof. rewrite rev_app_distr. cbn [rev app]. reflexivity. Qed.

(** X18: a route measured backwards has the same length: when the route
    from the start city through [q] is measured, so is the route through
    [q] reversed, with the same distance.  Every route thus ties with its
    reverse, and of the two the search keeps the one that comes first. *)
Theorem reversed_route_same_distance (g : GraphModel) (start_city : string)
    (q : list string) (c : Z) :
  TSPSolver.route_distance (graph_of g) (start_city :: q) = Ok c ->
  TSPSolver.route_distance (graph_of g) (start_city :: rev q) = Ok c.
Proof.
  intros Hrun.
  assert (Hedges : forall x y,
            consecutive (start_city :: (rev q ++ [start_city])) x y ->
            exists w, NX.weight (graph_of g) x y = Ok w).
  { intros x y Hc.
    change (start_city :: (rev q ++ [start_city]))
      with ((start_city :: rev q) ++ [start_city]) in Hc.
    rewrite closed_rev in Hc. apply consecutive_rev in Hc.
    destruct (route_measured_edges _ _ _ _ _ _ Hrun Hc) as [w Hw].
    exists w. now apply graph_weight_sym. }
  destruct (walk_total_edges _ _ _ 0 Hedges) as [c' Hc'].
  rewrite route_distance_closed_walk, Hc'. f_equal.
  rewrite <- route_distance_closed_walk in Hc'.
  rewrite (route_distance_sound _ _ _ _ Hc'),
    (route_distance_sound _ _ _ _ Hrun).
  unfold cycle_cost. rewrite closed_rev.
  apply walk_sum_rev. intros x y. apply weight_of_sym.
Qed.

Lemma reversed_route_same_distance_witness :
  TSPSolver.route_distance (graph_of triangle_ABC) ("A" :: rev ["B"; "C"])
  = Ok 45.
Proof.
  exact (reversed_route_same_distance triangle_ABC "A" ["B"; "C"] 45 eq_refl).
Defined.

(* ===================================================================== *)
(** * The least cost, in the weights [add_edge] recorded *)
(* ===================================================================== *)

Lemma walk_sum_ext (f h : string -> string -> Z) (l : list string) :
  (forall x y, f x y = h x y) -> walk_sum f l = walk_sum h l.
Proof.
  intros Hfh. induction l as [|a l IH]; [reflexivity|].
  destruct l as [|b l]; [reflexivity|].
  now rewrite !walk_sum_cons, IH, Hfh.
Qed.

Lemma get_graph_mirrors_on_run (actions : list action) (u v : string) (w : Z) :
  NX.weight (graph_of (run actions)) u v = Ok w
  <-> entry (run actions) u v = Some w.
Proof.
  rewrite graph_weight_Ok.
  now rewrite graph_entry by (apply well_formed_run || apply symmetric_run).
Qed.

(** The weights the solver looks up are the weights [add_edge] recorded. *)
Lemma weight_of_recorded (actions : list action) (u v : string) :
  weight_of (graph_of (run actions)) u v = recorded (run actions) u v.
Proof.
  unfold weight_of, recorded.
  destruct (entry (run actions) u v) as [w|] eqn:E.
  - apply (get_graph_mirrors_on_run actions u v w) in E. now rewrite E.
  - destruct (NX.weight (graph_of (run actions)) u v) as [w|e] eqn:Ew;
      [|reflexivity].
    apply (get_graph_mirrors_on_run actions u v w) in Ew. congruence.
Qed.

Lemma cycle_cost_recorded (actions : list action) (start : string)
    (route : list string) :
  cycle_cost (graph_of (run actions)) start route
  = recorded_cost (run actions) start route.
Proof.
  unfold cycle_cost, recorded_cost. apply walk_sum_ext.
  intros x y. apply weight_of_recorded.
Qed.

Lemma nodes_length_run (actions : list action) :
  length (NX.nodes (graph_of (run actions)))
  = length (keys (adjacency_matrix (run actions))).
Proof.
  apply Permutation_length, NoDup_Permutation.
  - apply consistent_graph_of.
  - apply well_formed_run.
  - intros x. rewrite nodes_run. apply mem_keys.
Qed.

Lemma tour_hamiltonian (actions : list action) (start : string)
    (route : list string) :
  tour (run actions) start route
  <-> hamiltonian (graph_of (run actions)) start route.
Proof.
  unfold tour, hamiltonian.
  split; intros [Hhd [Hnd Hsame]]; (split; [exact Hhd | split; [exact Hnd|]]);
    intros x; rewrite (Hsame x); [symmetry|]; apply nodes_run.
Qed.

(** C1: on a graph that [add_edge] calls have built, complete over its
    node set, with at least two nodes and a start city that is one of them,
    [solve] returns a route through every node once and a cost.  The cost is
    the sum of the weights that [add_edge] recorded along the route and back
    to the start city, and no Hamiltonian cycle through the start city has a
    smaller such sum. *)
Theorem solve_optimal (actions : list action) (start_city : string) :
  all_joined (run actions) ->
  (2 <= length (keys (adjacency_matrix (run actions))))%nat ->
  is_node (run actions) start_city = true ->
  exists route cost,
    solve (run actions) start_city = Ok (Some route, Distance (Finite cost)) /\
    tour (run actions) start_city route /\
    cost = recorded_cost (run actions) start_city route /\
    forall cycle, tour (run actions) start_city cycle ->
                  cost <= recorded_cost (run actions) start_city cycle.
Proof.
  intros Hjoined Hn Hstart.
  destruct (optimum (run actions) start_city) as [best [c [Hsolve [Hham [Hc Hleast]]]]].
  - now apply complete_run.
  - now rewrite nodes_length_run.
  - now apply nodes_run.
  - exists (start_city :: best), c. split; [exact Hsolve | split; [|split]].
    + now apply tour_hamiltonian.
    + now rewrite <- cycle_cost_recorded.
    + intros cycle Hcycle. rewrite <- cycle_cost_recorded.
      now apply Hleast, tour_hamiltonian.
Qed.

Lemma triangle_all_joined : all_joined triangle_ABC.
Proof.
  unfold all_joined, triangle_ABC.
  apply (proj1 (complete_run
                  [AddEdge "A" "B" 10; AddEdge "B" "C" 15; AddEdge "A" "C" 20])).
  exact complete_triangle.
Qed.

(** On the triangle of weights 10, 15 and 20 the cost is 45, the sum of
    the three recorded weights, and no cycle through A has a smaller sum. *)
Lemma solve_optimal_witness :
  solve triangle_ABC "A" = Ok (Some ["A"; "B"; "C"], Distance (Finite 45)) /\
  tour triangle_ABC "A" ["A"; "B"; "C"] /\
  recorded_cost triangle_ABC "A" ["A"; "B"; "C"] = 10 + 15 + 20 /\
  forall cycle, tour triangle_ABC "A" cycle ->
                45 <= recorded_cost triangle_ABC "A" cycle.
Proof.
  destruct (solve_optimal
              [AddEdge "A" "B" 10; AddEdge "B" "C" 15; AddEdge "A" "C" 20] "A"
              triangle_all_joined ltac:(simpl; lia) eq_refl)
    as [route [cost [Hsolve [Htour [Hcost Hleast]]]]].
  change (run [AddEdge "A" "B" 10; AddEdge "B" "C" 15; AddEdge "A" "C" 20])
    with triangle_ABC in *.
  assert (Hrun : solve triangle_ABC "A"
                 = Ok (Some ["A"; "B"; "C"], Distance (Finite 45)))
    by reflexivity.
  rewrite Hrun in Hsolve. injection Hsolve as <- <-.
  split; [exact Hrun | split; [exact Htour | split; [reflexivity | exact Hleast]]].
Defined.
